(** * Output heads and the Markov-chain state-count inference of pycave

    A shallow embedding of [pycave/bayes/output.py] (the [Discrete] and
    [Gaussian] output heads) and of [_get_num_states] from
    [pycave/bayes/markov_chain/estimator.py].

    Numbers.  Tensor entries are exact rationals ([Qc], canonical
    rationals with Leibniz equality); floating-point rounding is not
    modelled.  Results of a division, where a zero denominator can occur,
    are IEEE-like values [fl] with infinities and NaN.  Signed zeros are
    not modelled.

    Memory.  The statistics records returned by [Discrete.maximize] are
    Python dicts holding two tensors.  [Discrete.update] adds into the
    tensors of its [current] argument in place, so tensors live in a
    store: a heap of 2-D tensors (the [num] entries) and a heap of 1-D
    tensors (the [denom] entries), and a record is a pair of references
    into them. *)

From Stdlib Require Import QArith Qcanon ZArith String.
From stdpp Require Import base gmap list.

Local Open Scope nat_scope.
#[local] Set Warnings "-register-all".

(** ** IEEE-like values *)

Inductive fl : Type :=
| Fin (x : Qc)
| PInf
| NInf
| NaN.

#[global] Instance fl_eq_dec : EqDecision fl.
Proof.
  intros a b. unfold Decision.
  destruct a as [x| | |], b as [y| | |];
    try (right; discriminate); try (left; reflexivity).
  destruct (Qc_eq_dec x y) as [E|Hne]; [left; exact (f_equal Fin E)|].
  right. intros H. inversion H. contradiction.
Defined.

(** Sign of a non-zero rational, as an infinity. *)
Definition inf_of (x : Qc) : fl :=
  if Qclt_le_dec 0%Qc x then PInf else NInf.

Definition flip (a : fl) : fl :=
  match a with PInf => NInf | NInf => PInf | a => a end.

(** Division [a / b] on floats. *)
Definition fdiv (a b : fl) : fl :=
  match a, b with
  | NaN, _ | _, NaN => NaN
  | Fin x, Fin y =>
      if Qc_eq_dec y 0%Qc then (if Qc_eq_dec x 0%Qc then NaN else inf_of x)
      else Fin (x / y)%Qc
  | Fin _, (PInf | NInf) => Fin 0%Qc
  | (PInf | NInf), Fin y => if Qclt_le_dec y 0%Qc then flip a else a
  | (PInf | NInf), (PInf | NInf) => NaN
  end.

(** Addition [a + b] on floats. *)
Definition fadd (a b : fl) : fl :=
  match a, b with
  | NaN, _ | _, NaN => NaN
  | Fin x, Fin y => Fin (x + y)%Qc
  | PInf, NInf | NInf, PInf => NaN
  | PInf, _ | _, PInf => PInf
  | NInf, _ | _, NInf => NInf
  end.

(** [row.sum()] *)
Definition fsum (row : list fl) : fl := foldr fadd (Fin 0%Qc) row.

Definition is_nan (a : fl) : bool := match a with NaN => true | _ => false end.

(** ** Tensors *)

(** A 2-D tensor as its list of rows. *)
Abbreviation matrix := (list (list Qc)).

(** A 2-D tensor with its column count, which a list of rows loses when it
    has no row ([gamma] of shape [N, K']). *)
Record resp := mkResp { rcols : nat; rrows : matrix }.

Definition resp_wf (g : resp) : bool :=
  forallb (fun r => length r =? rcols g) (rrows g).

Definition zeros (K V : nat) : matrix := repeat (repeat 0%Qc V) K.

(** [t += u] for tensors of equal shape. *)
Definition vadd (a b : list Qc) : list Qc := zip_with Qcplus a b.
Definition madd (a b : matrix) : matrix := zip_with vadd a b.

(** [t.sum()] of a 1-D tensor. *)
Definition qsum (row : list Qc) : Qc := foldr Qcplus 0%Qc row.

(** ** The store of the Discrete head *)

Record state := mkState {
  probabilities : list (list fl);
  mats : gmap nat matrix;
  vecs : gmap nat (list Qc);
  next : nat
}.

(** A statistics record [{'num': num, 'denom': denom}]: two tensor
    references. *)
Record stats := mkStats { num : nat; denom : nat }.

Definition set_probabilities (p : list (list fl)) (st : state) : state :=
  mkState p (mats st) (vecs st) (next st).

(** [self.num_states], i.e. [self.probabilities.size(0)]. *)
Definition num_states (st : state) : nat := length (probabilities st).

(** [self.probabilities.size(1)]; a table without rows carries no width
    in this representation. *)
Definition num_outputs (st : state) : nat :=
  match probabilities st with r :: _ => length r | [] => 0 end.

(** ** Discrete.reset_parameters *)

(** [self.probabilities.uniform_()] overwrites every entry ([draw k v] is
    the draw for entry [k, v]); then
    [self.probabilities /= self.probabilities.sum(-1, keepdim=True)]
    divides every row by its own sum, computed before the division. *)
Definition discrete_reset (draw : nat -> nat -> Qc) (st : state) : state :=
  set_probabilities
    (imap (fun k row =>
       let u := imap (fun v _ => Fin (draw k v)) row in
       map (fun x => fdiv x (fsum u)) u) (probabilities st)) st.

(** ** Discrete.maximize *)

(** [row[v] += x] *)
Fixpoint add_at (v : nat) (x : Qc) (row : list Qc) : list Qc :=
  match row, v with
  | [], _ => []
  | y :: r, O => (y + x)%Qc :: r
  | y :: r, S v' => y :: add_at v' x r
  end.

(** One column [n] of [num.scatter_add_(1, sequences_, gamma_)]: for every
    state [k], [num[k][v] += gamma_[k][n]] where [v = sequences_[k][n]]. *)
Fixpoint scatter_col (m : matrix) (v : nat) (g : list Qc) : matrix :=
  match m, g with
  | row :: m', x :: g' => add_at v x row :: scatter_col m' v g'
  | _, _ => m
  end.

(** [num.scatter_add_(1, sequences_, gamma_)] where [sequences_] is the
    flattened data repeated for every state and [gamma_ = gamma.t()]: the
    rows of [gamma] are the columns of [gamma_]. *)
Fixpoint scatter_add (m : matrix) (data : list nat) (grows : matrix) : matrix :=
  match data, grows with
  | v :: data', g :: grows' => scatter_add (scatter_col m v g) data' grows'
  | _, _ => m
  end.

(** [gamma.sum(0)] *)
Fixpoint col_sums (cols : nat) (rows : matrix) : list Qc :=
  match rows with
  | [] => repeat 0%Qc cols
  | r :: rs => vadd r (col_sums cols rs)
  end.

(** The shape conditions under which [scatter_add_] runs: [index] is
    [K x N], [src] is [K' x N'], [self] is [K x V]; it needs [K <= K'],
    [N <= N'] and every index in [0, V) (no index is read when [K = 0]).
    For an empty index ([K = 0] or [N = 0]) torch skips the shape
    checks; the model keeps them, so it matches torch on a non-empty
    index and, on an empty one, covers only calls with these shapes. *)
Definition scatter_ok (K V : nat) (data : list nat) (g : resp) : bool :=
  resp_wf g && (K <=? rcols g) && (length data <=? length (rrows g)) &&
  (negb (0 <? K) || forallb (fun v => v <? V) data).

Definition maximize (st : state) (data : list nat) (gamma : resp)
  : option (state * stats) :=
  let K := num_states st in
  let V := num_outputs st in
  if scatter_ok K V data gamma then
    let n := next st in
    let num_t := scatter_add (zeros K V) data (rrows gamma) in
    let denom_t := col_sums (rcols gamma) (rrows gamma) in
    Some (mkState (probabilities st) (<[n := num_t]> (mats st))
            (<[n := denom_t]> (vecs st)) (S n),
          mkStats n n)
  else None.

(** ** Discrete.update *)

(** [t += u] on the tensor [t] at reference [r]; operands of different
    shapes (which torch may broadcast) are outside the model. *)
Definition iadd_mat (st : state) (r s : nat) : option state :=
  match mats st !! r, mats st !! s with
  | Some a, Some b =>
      if bool_decide (map length a = map length b) then
        Some (mkState (probabilities st) (<[r := madd a b]> (mats st))
                (vecs st) (next st))
      else None
  | _, _ => None
  end.

Definition iadd_vec (st : state) (r s : nat) : option state :=
  match vecs st !! r, vecs st !! s with
  | Some a, Some b =>
      if bool_decide (length a = length b) then
        Some (mkState (probabilities st) (mats st)
                (<[r := vadd a b]> (vecs st)) (next st))
      else None
  | _, _ => None
  end.

Definition update (st : state) (current : stats) (previous : option stats)
  : option (state * stats) :=
  match previous with
  | None => Some (st, mkStats (num current) (denom current))
  | Some p =>
      match iadd_mat st (num current) (num p) with
      | None => None
      | Some st1 =>
          match iadd_vec st1 (denom current) (denom p) with
          | None => None
          | Some st2 => Some (st2, mkStats (num current) (denom current))
          end
      end
  end.

(** ** Discrete.apply *)

(** [num / denom] for a 2-D [num] of shape [K x V] and a 1-D [denom] of
    length [L]: broadcasting aligns trailing dimensions, so [denom] acts
    as a [1 x L] row; the result is [K x W] with
    [out[k][w] = num[k][w'] / denom[w'']], where [w' = 0] if [V = 1] and
    [w' = w] otherwise, and likewise [w''] for [L]. *)

(** [size(1)] of a 2-D tensor. *)
Definition width (m : matrix) : nat :=
  match m with r :: _ => length r | [] => 0 end.

(** Width [W] of the broadcast of [V] against [L]. *)
Definition bcast_width (V L : nat) : option nat :=
  if V =? L then Some V else if V =? 1 then Some L
  else if L =? 1 then Some V else None.

(** Row [k] of the quotient. *)
Definition bdiv_row (V L W : nat) (d row : list Qc) : list fl :=
  map (fun w =>
         fdiv (Fin (nth (if V =? 1 then 0 else w) row 0%Qc))
              (Fin (nth (if L =? 1 then 0 else w) d 0%Qc)))
      (seq 0 W).

(** [num / denom] *)
Definition bdiv (m : matrix) (d : list Qc) : option (list (list fl)) :=
  let V := width m in
  let L := length d in
  match bcast_width V L with
  | None => None
  | Some W => Some (map (bdiv_row V L W d) m)
  end.

(** [self.probabilities.set_(update['num'] / update['denom'])] *)
Definition apply (st : state) (u : stats) : option state :=
  match mats st !! num u, vecs st !! denom u with
  | Some m, Some d =>
      match bdiv m d with
      | Some p => Some (set_probabilities p st)
      | None => None
      end
  | _, _ => None
  end.

(** ** The epoch driver of the Discrete head

    One [local = maximize(batch)] per batch and one
    [merged = update(local, merged)] fold, starting from [None]; the
    merged record is then handed to [apply]. *)
Fixpoint fit_epoch (st : state) (acc : option stats)
    (batches : list (list nat * resp)) : option (state * option stats) :=
  match batches with
  | [] => Some (st, acc)
  | (data, gamma) :: bs =>
      match maximize st data gamma with
      | None => None
      | Some (st1, loc) =>
          match update st1 loc acc with
          | None => None
          | Some (st2, merged) => fit_epoch st2 (Some merged) bs
          end
      end
  end.

(** ** The statistics as the spec states them *)

(** [sum of gamma[n][k] over all n with data[n] = v] *)
Fixpoint num_spec (data : list nat) (rows : matrix) (k v : nat) : Qc :=
  match data, rows with
  | d :: ds, r :: rs =>
      ((if d =? v then nth k r 0%Qc else 0%Qc) + num_spec ds rs k v)%Qc
  | _, _ => 0%Qc
  end.

(** [sum of gamma[n][k] over all n] *)
Fixpoint denom_spec (rows : matrix) (k : nat) : Qc :=
  match rows with
  | [] => 0%Qc
  | r :: rs => (nth k r 0%Qc + denom_spec rs k)%Qc
  end.

(** A batch [(data, gamma)] fits a head with [K] states and [V] symbols:
    [gamma] is [N x K] for [N] symbols, all in [0, V). *)
Definition batch_ok (K V : nat) (b : list nat * resp) : bool :=
  (rcols (snd b) =? K) && resp_wf (snd b) &&
  (length (fst b) =? length (rrows (snd b))) && forallb (fun v => v <? V) (fst b).

(** [num_spec] and [denom_spec] summed over the batches of an epoch. *)
Definition epoch_num_spec (bs : list (list nat * resp)) (k v : nat) : Qc :=
  foldr (fun b acc => num_spec (fst b) (rrows (snd b)) k v + acc)%Qc 0%Qc bs.

Definition epoch_denom_spec (bs : list (list nat * resp)) (k : nat) : Qc :=
  foldr (fun b acc => denom_spec (rrows (snd b)) k + acc)%Qc 0%Qc bs.

(** ** Discrete.evaluate *)

(** Modelled from the spec: [normalize] of [pycave/bayes/utils.py], which
    is not among the sources.  The spec: normalisation over the state
    axis that guards against all-zero rows; an all-zero row is returned
    as it is. *)
Definition normalize_row (row : list fl) : list fl :=
  let s := fsum row in
  if decide (s = Fin 0%Qc) then row else map (fun x => fdiv x s) row.

(** [self.probabilities.t()[data]]: for each symbol [v] of [data], the
    column [v] of the table (an index out of range raises). *)
Definition gather_columns (p : list (list fl)) (data : list nat)
  : option (list (list fl)) :=
  mapM (fun v => mapM (fun row => row !! v) p) data.

(** [evaluate] reads the table and returns the normalised lookups; the
    state is handed back. *)
Definition discrete_evaluate (st : state) (data : list nat)
  : option (state * list (list fl)) :=
  match gather_columns (probabilities st) data with
  | Some t => Some (st, map normalize_row t)
  | None => None
  end.

(** How torch reads an entry [i] of a [long] index tensor against a
    dimension of size [n]: a negative index counts from the end, and an
    index outside [[-n, n)] raises. *)
Definition norm_index (n : nat) (i : Z) : option nat :=
  if (0 <=? i)%Z then
    if (i <? Z.of_nat n)%Z then Some (Z.to_nat i) else None
  else if (- Z.of_nat n <=? i)%Z then Some (Z.to_nat (Z.of_nat n + i))
  else None.

(** [Discrete.evaluate(data)] for a [long] tensor [data] of symbols:
    [self.probabilities.t()[data]] resolves every symbol against the
    size [num_outputs] of dimension 0 of the transposed table, then
    gathers the columns (a table without rows is outside the model, as
    for [num_outputs]). *)
Definition discrete_evaluate_long (st : state) (data : list Z)
  : option (state * list (list fl)) :=
  match mapM (norm_index (num_outputs st)) data with
  | Some idx => discrete_evaluate st idx
  | None => None
  end.

(** ** The Gaussian output head *)

(** [self.covars]: a 2-D or a 1-D tensor. *)
Inductive covars_t : Type :=
| CovMat (m : matrix)
| CovVec (v : list Qc).

(** [self.means] is a [K x D] tensor: [means] holds its rows and
    [means_size1] its second dimension [D], which [torch.empty(K, D)]
    fixes even when [K = 0] and there is no row to read it from. *)
Record gaussian := mkGaussian {
  covariance : string;
  means : matrix;
  means_size1 : nat;
  covars : covars_t
}.

(** [self.covars.fill_(1)] *)
Definition fill_one (c : covars_t) : covars_t :=
  match c with
  | CovMat m => CovMat (map (map (fun _ => 1%Qc)) m)
  | CovVec v => CovVec (map (fun _ => 1%Qc) v)
  end.

(** [reset_parameters()] without data: [self.means.normal_()] draws every
    entry ([draw k d] is the draw for entry [k, d]), and the covariances
    are set to 1. *)
Definition reset_parameters (g : gaussian) (draw : nat -> nat -> Qc) : gaussian :=
  mkGaussian (covariance g)
    (imap (fun k row => imap (fun d _ => draw k d) row) (means g))
    (means_size1 g) (fill_one (covars g)).

(** [Gaussian.__init__(num_components, num_features, covariance)]; the
    entries of [torch.empty] are placeholders, written as zeros.  The
    result is an option so that a failing constructor can be stated. *)
Definition gaussian_init (K D : nat) (cov : string) (draw : nat -> nat -> Qc)
  : option gaussian :=
  let covars0 :=
    if String.eqb cov "diag" then CovMat (zeros K D)
    else if String.eqb cov "spherical" then CovVec (repeat 0%Qc K)
    else CovVec (repeat 0%Qc D) in
  Some (reset_parameters (mkGaussian cov (zeros K D) D covars0) draw).

(** [self.num_features], i.e. [self.means.size(1)]. *)
Definition num_features (g : gaussian) : nat := means_size1 g.

(** [torch.diag(v)] of a 1-D tensor. *)
Definition diag (v : list Qc) : matrix :=
  map (fun r => map (fun c => if r =? c then nth c v 0%Qc else 0%Qc)
                    (seq 0 (length v)))
      (seq 0 (length v)).

(** [s * torch.diag(torch.ones(D))] *)
Definition scaled_eye (s : Qc) (D : nat) : matrix :=
  map (map (fun x => (s * x)%Qc)) (diag (repeat 1%Qc D)).

(** [_get_full_covariance_matrix(i)]; an index out of range raises.
    Pairings of a mode with a covariance tensor that the constructor
    never builds are outside the model. *)
Definition get_full_covariance_matrix (g : gaussian) (i : nat) : option matrix :=
  if String.eqb (covariance g) "diag" then
    match covars g with
    | CovMat m => option_map diag (m !! i)
    | CovVec _ => None
    end
  else if String.eqb (covariance g) "diag-shared" then
    match covars g with
    | CovVec v => Some (diag v)
    | CovMat _ => None
    end
  else
    match covars g with
    | CovVec v => option_map (fun s => scaled_eye s (num_features g)) (v !! i)
    | CovMat _ => None
    end.

(** The record [{'means': ..., 'covars': ...}] of [Gaussian.maximize]. *)
Record gstats := mkGStats { g_means : matrix; g_covars : covars_t }.

(** Modelled from the spec: [max_likeli_means] of [pycave/bayes/utils.py],
    not among the sources: the responsibility-weighted mean of every
    component, [sum_n gamma[n][k] x[n] / denom[k]]. *)
Definition max_likeli_means (xs gamma : matrix) (denom : list Qc) : matrix :=
  imap (fun k dk =>
          map (fun d =>
                 (foldr Qcplus 0%Qc
                    (zip_with (fun x g => nth k g 0%Qc * nth d x 0%Qc)%Qc xs gamma)
                  / dk)%Qc)
              (seq 0 (width xs)))
       denom.

(** Modelled from the spec: the weighted scatter of component [k] along
    feature [d], [sum_n gamma[n][k] (x[n][d] - mu[k][d])^2]. *)
Definition scatter_diag (xs gamma means : matrix) (k d : nat) : Qc :=
  foldr Qcplus 0%Qc
    (zip_with (fun x g =>
       let e := (nth d x 0%Qc - nth d (nth k means []) 0%Qc)%Qc in
       (nth k g 0%Qc * (e * e))%Qc) xs gamma).

(** Modelled from the spec: [max_likeli_covars] of [pycave/bayes/utils.py],
    not among the sources.  [diag] keeps the diagonal of the scatter per
    component, [spherical] averages it across features, [diag-shared]
    pools it across components before dividing by the total
    responsibility.  The spec gives no rule for other names here. *)
Definition max_likeli_covars (xs gamma : matrix) (denom : list Qc)
    (means : matrix) (cov : string) : option covars_t :=
  let D := width xs in
  let diag_k k dk := map (fun d => scatter_diag xs gamma means k d / dk)%Qc (seq 0 D) in
  if String.eqb cov "diag" then Some (CovMat (imap diag_k denom))
  else if String.eqb cov "spherical" then
    Some (CovVec (imap (fun k dk =>
            (foldr Qcplus 0%Qc (diag_k k dk) / Q2Qc (inject_Z (Z.of_nat D)))%Qc) denom))
  else if String.eqb cov "diag-shared" then
    Some (CovVec (map (fun d =>
            (foldr Qcplus 0%Qc (map (fun k => scatter_diag xs gamma means k d)
                                    (seq 0 (length denom)))
             / foldr Qcplus 0%Qc denom)%Qc) (seq 0 D)))
  else None.

(** [Gaussian.maximize(sequences, gamma)] *)
Definition gaussian_maximize (g : gaussian) (xs gamma : matrix) : option gstats :=
  let denom := col_sums (width gamma) gamma in
  let mu := max_likeli_means xs gamma denom in
  match max_likeli_covars xs gamma denom mu (covariance g) with
  | Some c => Some (mkGStats mu c)
  | None => None
  end.

(** [Gaussian.update]: its body is [pass], so it returns [None]. *)
Definition gaussian_update (current : gstats) (previous : option gstats)
  : option gstats := None.

(** [Gaussian.apply]: its body is [pass]; the head is handed back. *)
Definition gaussian_apply (g : gaussian) (u : option gstats) : gaussian := g.

Section Gaussian_evaluate.

(** [log_normal] of [pycave/bayes/utils.py] (not among the sources) and
    [Tensor.exp]: the spec describes a log-density evaluation that reads
    the data, means and covariances; they are left as arbitrary
    functions. *)
Variable log_normal : matrix -> matrix -> covars_t -> list (list fl).
Variable fexp : fl -> fl.

(** [Gaussian.evaluate(data, log)] for [N x D] data; the reshapes are the
    identity on 2-D data. *)
Definition gaussian_evaluate (g : gaussian) (data : matrix) (log : bool)
  : gaussian * list (list fl) :=
  let result := log_normal data (means g) (covars g) in
  (g, if log then result else map (map fexp) result).

End Gaussian_evaluate.

(** ** [_get_num_states] of the Markov-chain estimator *)

Inductive dtype : Type := Int64 | Int32 | Float32 | Float64.

(** [SequenceData]: a NumPy array, a PyTorch tensor (their entries,
    flattened, as integers), or a dataset iterated entry by entry. *)
Inductive seqdata : Type :=
| NDArray (dt : dtype) (xs : list Z)
| Tensor (dt : dtype) (xs : list Z)
| Dataset (entries : list seqdata).

Definition is_int64 (dt : dtype) : bool :=
  match dt with Int64 => true | _ => false end.

(** [x.max()]; it raises on an empty array. *)
Definition list_max (xs : list Z) : option Z :=
  match xs with
  | [] => None
  | x :: rest => Some (fold_left Z.max rest x)
  end.

(** Arithmetic on a NumPy [int64] scalar wraps around. *)
Definition wrap64 (z : Z) : Z := ((z + 2 ^ 63) mod 2 ^ 64 - 2 ^ 63)%Z.

(** [max(...)] over a generator; it raises on an empty one. *)
Definition max_opt (xs : list (option Z)) : option Z :=
  match mapM id xs with
  | Some (y :: ys) => Some (fold_left Z.max ys y)
  | _ => None
  end.

(** [_get_num_states(data)]; [None] stands for a raised exception. *)
Fixpoint get_num_states (d : seqdata) : option Z :=
  match d with
  | NDArray dt xs =>
      if is_int64 dt then option_map (fun m => wrap64 (m + 1)) (list_max xs)
      else None
  | Tensor dt xs =>
      if is_int64 dt then option_map (fun m => (m + 1)%Z) (list_max xs)
      else None
  | Dataset es => max_opt (map get_num_states es)
  end.


(** Every state value held by the data, in iteration order. *)
Fixpoint leaves (d : seqdata) : list Z :=
  match d with
  | NDArray _ xs | Tensor _ xs => xs
  | Dataset es => flat_map leaves es
  end.

(** ** The fold invariant of the Discrete statistics

    With non-negative responsibilities, a record reachable by the epoch
    fold has non-negative entries, and a state [k] with [denom[k] = 0] has
    an all-zero row [num[k]]. *)

Definition good (K V : nat) (st : state) (r : stats) : Prop :=
  num r < next st /\ denom r < next st /\
  exists m d,
    mats st !! num r = Some m /\ vecs st !! denom r = Some d /\
    map length m = repeat V K /\ K <= length d /\
    forall k, k < K ->
      (0 <= nth k d 0%Qc)%Qc /\
      Forall (fun x => 0 <= x)%Qc (nth k m []) /\
      (nth k d 0%Qc = 0%Qc -> Forall (fun x => x = 0%Qc) (nth k m [])).

Definition nonneg_batches (bs : list (list nat * resp)) : Prop :=
  Forall (fun b => Forall (Forall (fun x => 0 <= x)%Qc) (rrows (snd b))) bs.

(** The record [r] holds a [K x V] tensor [num] with entries [fn k v] and
    a length-[K] tensor [denom] with entries [fd k]. *)
Definition holds (K V : nat) (st : state) (r : stats)
    (fn : nat -> nat -> Qc) (fd : nat -> Qc) : Prop :=
  num r < next st /\ denom r < next st /\
  exists m d,
    mats st !! num r = Some m /\ vecs st !! denom r = Some d /\
    map length m = repeat V K /\ length d = K /\
    forall k, k < K ->
      (forall v, v < V -> nth v (nth k m []) 0%Qc = fn k v) /\ nth k d 0%Qc = fd k.

(** ** Concrete runs *)

#[global] Instance Qc_eq_decision : EqDecision Qc := Qc_eq_dec.

(** Literals. *)
Definition qc (a : Z) : Qc := Q2Qc (inject_Z a).
Definition qf (a : Z) (b : positive) : Qc := Q2Qc (Qmake a b).

(** The epoch fold followed by [apply]. *)
Definition run_apply (st : state) (bs : list (list nat * resp))
  : option (state * stats * state) :=
  match fit_epoch st None bs with
  | Some (st1, Some r) =>
      match apply st1 r with
      | Some st2 => Some (st1, r, st2)
      | None => None
      end
  | _ => None
  end.

(** A Discrete head with two states and two symbols, uniform rows, and an
    empty store. *)
Definition st_uniform : state :=
  mkState [[Fin (qf 1 2); Fin (qf 1 2)]; [Fin (qf 1 2); Fin (qf 1 2)]] ∅ ∅ 0.

(** One batch: symbols [0; 1; 1], responsibilities [[1,0],[0,1],[1,0]]. *)
Definition batches_mixed : list (list nat * resp) :=
  [([0; 1; 1], mkResp 2 [[qc 1; qc 0]; [qc 0; qc 1]; [qc 1; qc 0]])].

(** Two batches, merged by [update] in the epoch fold: [batches_mixed],
    then symbols [1] and [0] assigned to states 1 and 0. *)
Definition batches_two : list (list nat * resp) :=
  batches_mixed ++ [([1; 0], mkResp 2 [[qc 0; qc 1]; [qc 1; qc 0]])].

(** One batch: symbol [0] wholly assigned to state 0; state 1 gets no
    responsibility. *)
Definition batches_unseen : list (list nat * resp) :=
  [([0], mkResp 2 [[qc 1; qc 0]])].

(** A store holding three statistics records of shape [1 x 2] and [1],
    at references 0, 1 and 2. *)
Definition st_three : state :=
  mkState []
    (<[0 := [[qc 1; qc 2]]]> (<[1 := [[qc 3; qc 4]]]> (<[2 := [[qc 5; qc 6]]]> ∅)))
    (<[0 := [qc 3]]> (<[1 := [qc 7]]> (<[2 := [qc 11]]> ∅)))
    3.

(** ** Lemmas on the tensor operations *)

Section Tensor_lemmas.

Lemma length_add_at v x row : length (add_at v x row) = length row.
Proof.
  revert v. induction row as [|y r IH]; intros [|v]; simpl; auto.
Qed.

Lemma nth_add_at v x row w :
  v < length row ->
  nth w (add_at v x row) 0%Qc =
  (nth w row 0%Qc + (if v =? w then x else 0%Qc))%Qc.
Proof.
  revert v w. induction row as [|y r IH]; intros v w Hv; simpl in Hv; [lia|].
  destruct v as [|v], w as [|w]; simpl.
  - reflexivity.
  - rewrite Qcplus_0_r. reflexivity.
  - rewrite Qcplus_0_r. reflexivity.
  - apply IH. lia.
Qed.

Lemma map_length_scatter_col m v g :
  map length (scatter_col m v g) = map length m.
Proof.
  revert g. induction m as [|row m IH]; intros [|x g]; simpl; auto.
  rewrite length_add_at, IH. reflexivity.
Qed.

Lemma nth_scatter_col m v g k :
  k < length m -> k < length g ->
  nth k (scatter_col m v g) [] = add_at v (nth k g 0%Qc) (nth k m []).
Proof.
  revert g k. induction m as [|row m IH]; intros [|x g] k Hm Hg;
    simpl in *; try lia.
  destruct k as [|k]; [reflexivity|]. apply IH; lia.
Qed.

Lemma map_length_scatter_add m data rows :
  map length (scatter_add m data rows) = map length m.
Proof.
  revert m rows. induction data as [|d ds IH]; intros m [|r rs]; simpl; auto.
  rewrite IH. apply map_length_scatter_col.
Qed.

Lemma length_map_eq {A B} (l1 : list (list A)) (l2 : list (list B)) :
  map length l1 = map length l2 -> length l1 = length l2.
Proof.
  intros H. rewrite <- (length_map length l1), <- (length_map length l2), H.
  reflexivity.
Qed.

Lemma nth_map_length {A} (l : list (list A)) k :
  length (nth k l []) = nth k (map length l) 0.
Proof.
  revert k. induction l as [|x l IH]; intros [|k]; simpl; auto.
Qed.

(** Every row of the scattered table gains the spec's sum. *)
Lemma nth_scatter_add m data rows k v :
  k < length m ->
  Forall (fun r => k < length r) rows ->
  Forall (fun d => d < length (nth k m [])) data ->
  nth v (nth k (scatter_add m data rows) []) 0%Qc =
  (nth v (nth k m []) 0%Qc + num_spec data rows k v)%Qc.
Proof.
  revert m rows. induction data as [|d ds IH]; intros m [|r rs] Hk Hrows Hdata;
    simpl; try (rewrite Qcplus_0_r; reflexivity).
  inversion Hrows as [|? ? Hr Hrs]; subst.
  inversion Hdata as [|? ? Hd Hds]; subst.
  assert (Hlen : map length (scatter_col m d r) = map length m)
    by apply map_length_scatter_col.
  assert (Hrow : nth k (scatter_col m d r) [] = add_at d (nth k r 0%Qc) (nth k m []))
    by (apply nth_scatter_col; lia).
  rewrite IH.
  - rewrite Hrow, nth_add_at by lia.
    rewrite <- Qcplus_assoc. reflexivity.
  - rewrite (length_map_eq _ _ Hlen). exact Hk.
  - exact Hrs.
  - rewrite Hrow, length_add_at. exact Hds.
Qed.

Lemma length_col_sums c rows :
  Forall (fun r => length r = c) rows -> length (col_sums c rows) = c.
Proof.
  induction 1 as [|r rs Hr Hrs IH]; simpl.
  - apply repeat_length.
  - unfold vadd. rewrite length_zip_with, Hr, IH. lia.
Qed.

Lemma nth_vadd a b k :
  k < length a -> k < length b ->
  nth k (vadd a b) 0%Qc = (nth k a 0%Qc + nth k b 0%Qc)%Qc.
Proof.
  revert b k. induction a as [|x a IH]; intros [|y b] k Ha Hb; simpl in *; try lia.
  destruct k as [|k]; [reflexivity|]. apply IH; lia.
Qed.

Lemma nth_col_sums c rows k :
  k < c -> Forall (fun r => length r = c) rows ->
  nth k (col_sums c rows) 0%Qc = denom_spec rows k.
Proof.
  intros Hk. induction 1 as [|r rs Hr Hrs IH]; simpl.
  - apply nth_repeat.
  - rewrite nth_vadd.
    + rewrite IH. reflexivity.
    + lia.
    + rewrite length_col_sums by exact Hrs. exact Hk.
Qed.

End Tensor_lemmas.

Section Discrete_maximize.

Lemma forallb_of_Forall {A} (P : A -> Prop) (f : A -> bool) (l : list A) :
  (forall x, P x -> f x = true) -> Forall P l -> forallb f l = true.
Proof.
  intros Hf HP. apply forallb_forall. intros x Hx.
  apply Hf. rewrite List.Forall_forall in HP. apply HP. exact Hx.
Qed.

Lemma length_zeros K V : length (zeros K V) = K.
Proof. apply repeat_length. Qed.

Lemma nth_zeros K V k : k < K -> nth k (zeros K V) [] = repeat 0%Qc V.
Proof. intros Hk. unfold zeros. apply nth_repeat_lt. exact Hk. Qed.

Lemma Forall_zeros K V : Forall (fun row => length row = V) (zeros K V).
Proof. apply List.Forall_forall. intros x Hx. apply repeat_spec in Hx. subst. apply repeat_length. Qed.

(** The shape conditions hold for an [N x K] responsibility matrix and
    symbols in range. *)
Lemma scatter_ok_intro K V data rows :
  Forall (fun r => length r = K) rows ->
  length data = length rows ->
  Forall (fun v => v < V) data ->
  scatter_ok K V data (mkResp K rows) = true.
Proof.
  intros Hrows Hlen Hdata. unfold scatter_ok, resp_wf; simpl.
  rewrite (forallb_of_Forall _ _ _ (fun r (H : length r = K) => proj2 (Nat.eqb_eq _ _) H) Hrows).
  rewrite (forallb_of_Forall _ _ _ (fun v (H : v < V) => proj2 (Nat.ltb_lt _ _) H) Hdata).
  rewrite Nat.leb_refl, Hlen, Nat.leb_refl, orb_true_r. reflexivity.
Qed.

End Discrete_maximize.

(** C5: for a Discrete head with [K] states and [V] symbols, an [N]-long
    symbol vector in range and an [N x K] responsibility matrix,
    [maximize] returns [num] with [num[k][v]] the sum of [gamma[n][k]]
    over the [n] with [data[n] = v], and [denom] with [denom[k]] the sum
    of [gamma[n][k]] over all [n]; the probability table is left as it
    was. *)
Theorem maximize_statistics (st : state) (data : list nat) (rows : matrix) :
  Forall (fun r => length r = num_states st) rows ->
  length data = length rows ->
  Forall (fun v => v < num_outputs st) data ->
  exists st' r numt dent,
    maximize st data (mkResp (num_states st) rows) = Some (st', r) /\
    probabilities st' = probabilities st /\
    mats st' !! num r = Some numt /\ vecs st' !! denom r = Some dent /\
    length numt = num_states st /\
    Forall (fun row => length row = num_outputs st) numt /\
    length dent = num_states st /\
    (forall k v, k < num_states st -> v < num_outputs st ->
       nth v (nth k numt []) 0%Qc = num_spec data rows k v) /\
    (forall k, k < num_states st -> nth k dent 0%Qc = denom_spec rows k).
Proof.
  intros Hrows Hlen Hdata.
  set (K := num_states st) in *. set (V := num_outputs st) in *.
  unfold maximize. fold K V.
  rewrite (scatter_ok_intro K V data rows Hrows Hlen Hdata).
  set (numt := scatter_add (zeros K V) data rows).
  set (dent := col_sums K rows).
  assert (Hshape : map length numt = map length (zeros K V))
    by apply map_length_scatter_add.
  exists (mkState (probabilities st) (<[next st := numt]> (mats st))
            (<[next st := dent]> (vecs st)) (S (next st))),
         (mkStats (next st) (next st)), numt, dent.
  simpl. split; [reflexivity|]. split; [reflexivity|].
  split; [apply lookup_insert_eq|]. split; [apply lookup_insert_eq|].
  split; [rewrite (length_map_eq _ _ Hshape); apply length_zeros|].
  split.
  { apply List.Forall_forall. intros row Hin.
    apply (In_nth _ _ []) in Hin as [k [Hk <-]].
    rewrite nth_map_length, Hshape, <- nth_map_length.
    rewrite (length_map_eq _ _ Hshape), length_zeros in Hk.
    rewrite nth_zeros by exact Hk. apply repeat_length. }
  split; [apply length_col_sums; exact Hrows|].
  split.
  - intros k v Hk Hv. unfold numt.
    rewrite nth_scatter_add.
    + rewrite nth_zeros, nth_repeat by exact Hk. apply Qcplus_0_l.
    + rewrite length_zeros. exact Hk.
    + eapply Forall_impl; [exact Hrows|]. intros r Hr. simpl in Hr. lia.
    + rewrite nth_zeros, repeat_length by exact Hk. exact Hdata.
  - intros k Hk. apply nth_col_sums; assumption.
Qed.

Section Discrete_update.

Lemma zip_with_comm {A B} (f : A -> A -> B) :
  (forall x y, f x y = f y x) ->
  forall l1 l2, zip_with f l1 l2 = zip_with f l2 l1.
Proof.
  intros Hf l1. induction l1 as [|x l1 IH]; intros [|y l2]; simpl; auto.
  rewrite Hf, IH. reflexivity.
Qed.

Lemma zip_with_assoc {A} (f : A -> A -> A) :
  (forall x y z, f (f x y) z = f x (f y z)) ->
  forall l1 l2 l3,
    zip_with f (zip_with f l1 l2) l3 = zip_with f l1 (zip_with f l2 l3).
Proof.
  intros Hf l1. induction l1 as [|x l1 IH]; intros [|y l2] [|z l3]; simpl; auto.
  rewrite Hf, IH. reflexivity.
Qed.

Lemma vadd_comm a b : vadd a b = vadd b a.
Proof. apply zip_with_comm, Qcplus_comm. Qed.

Lemma vadd_assoc a b c : vadd (vadd a b) c = vadd a (vadd b c).
Proof.
  apply zip_with_assoc. intros x y z. symmetry. apply Qcplus_assoc.
Qed.

Lemma madd_comm a b : madd a b = madd b a.
Proof. apply zip_with_comm, vadd_comm. Qed.

Lemma madd_assoc a b c : madd (madd a b) c = madd a (madd b c).
Proof. apply zip_with_assoc, vadd_assoc. Qed.

Lemma length_vadd a b : length a = length b -> length (vadd a b) = length a.
Proof. intros H. unfold vadd. rewrite length_zip_with, H. lia. Qed.

Lemma map_length_madd a b :
  map length a = map length b -> map length (madd a b) = map length a.
Proof.
  revert b. induction a as [|x a IH]; intros [|y b] H; simpl in *;
    try discriminate; auto.
  injection H as Hxy Hab. rewrite length_vadd by exact Hxy. f_equal. apply IH, Hab.
Qed.

(** [update(current, previous)] with [previous] present writes the sums
    into the tensors of [current] and returns them. *)
Lemma update_some st a b ma mb da db :
  mats st !! num a = Some ma -> mats st !! num b = Some mb ->
  vecs st !! denom a = Some da -> vecs st !! denom b = Some db ->
  map length ma = map length mb -> length da = length db ->
  update st a (Some b) =
  Some (mkState (probabilities st) (<[num a := madd ma mb]> (mats st))
          (<[denom a := vadd da db]> (vecs st)) (next st), a).
Proof.
  intros Hma Hmb Hda Hdb Hm Hd. destruct a as [na nd].
  unfold update, iadd_mat, iadd_vec; simpl in *.
  rewrite Hma, Hmb, bool_decide_eq_true_2 by exact Hm. simpl.
  rewrite Hda, Hdb, bool_decide_eq_true_2 by exact Hd. reflexivity.
Qed.

Lemma update_none st a : update st a None = Some (st, a).
Proof. destruct a. reflexivity. Qed.

End Discrete_update.

(** C10: [update(a, b)] with [previous] present mutates its [current]
    argument: afterwards the tensors of [a] hold the elementwise sums of
    the original values of [a] and [b], and the returned record is [a]
    itself, so it holds the same sums. *)
Theorem update_mutates_current (st : state) (a b : stats)
    (ma mb : matrix) (da db : list Qc) :
  mats st !! num a = Some ma -> mats st !! num b = Some mb ->
  vecs st !! denom a = Some da -> vecs st !! denom b = Some db ->
  map length ma = map length mb -> length da = length db ->
  exists st',
    update st a (Some b) = Some (st', a) /\
    mats st' !! num a = Some (madd ma mb) /\
    vecs st' !! denom a = Some (vadd da db) /\
    probabilities st' = probabilities st.
Proof.
  intros Hma Hmb Hda Hdb Hm Hd.
  eexists. split; [apply (update_some st a b ma mb da db); assumption|].
  simpl. split; [apply lookup_insert_eq|]. split; [apply lookup_insert_eq|].
  reflexivity.
Qed.

(** C4: [update] is an associative, commutative merge with [None] as
    identity.  [update(a, None)] returns [a] and leaves the store as it
    is.  For three records [a], [b], [c] of the same shape held in
    distinct tensors (as returned by distinct [maximize] calls), each of
    [update(update(a,b),c)], [update(update(b,a),c)] and
    [update(a, update(b,c))], run from the same store, returns a record
    holding the elementwise sums [num_a + num_b + num_c] and
    [denom_a + denom_b + denom_c]. *)
Theorem update_merge_laws (st : state) (a b c : stats)
    (ma mb mc : matrix) (da db dc : list Qc) :
  mats st !! num a = Some ma -> mats st !! num b = Some mb ->
  mats st !! num c = Some mc ->
  vecs st !! denom a = Some da -> vecs st !! denom b = Some db ->
  vecs st !! denom c = Some dc ->
  map length ma = map length mb -> map length mb = map length mc ->
  length da = length db -> length db = length dc ->
  num a <> num b -> num b <> num c -> num a <> num c ->
  denom a <> denom b -> denom b <> denom c -> denom a <> denom c ->
  update st a None = Some (st, a) /\
  exists st1 r1 st2 r2 st3 r3 st4 r4 st5 r5 st6 r6,
    update st a (Some b) = Some (st1, r1) /\
    update st1 r1 (Some c) = Some (st2, r2) /\
    update st b (Some a) = Some (st3, r3) /\
    update st3 r3 (Some c) = Some (st4, r4) /\
    update st b (Some c) = Some (st5, r5) /\
    update st5 a (Some r5) = Some (st6, r6) /\
    mats st2 !! num r2 = Some (madd (madd ma mb) mc) /\
    mats st4 !! num r4 = Some (madd (madd ma mb) mc) /\
    mats st6 !! num r6 = Some (madd (madd ma mb) mc) /\
    vecs st2 !! denom r2 = Some (vadd (vadd da db) dc) /\
    vecs st4 !! denom r4 = Some (vadd (vadd da db) dc) /\
    vecs st6 !! denom r6 = Some (vadd (vadd da db) dc).
Proof.
  intros Ha Hb Hc Hda Hdb Hdc Hab Hbc Hdab Hdbc Nab Nbc Nac Dab Dbc Dac.
  split; [apply update_none|].
  (* update(update(a, b), c) *)
  pose proof (update_some st a b ma mb da db Ha Hb Hda Hdb Hab Hdab) as U1.
  set (st1 := mkState _ _ _ _) in U1.
  assert (U2 : update st1 a (Some c) =
    Some (mkState (probabilities st1) (<[num a := madd (madd ma mb) mc]> (mats st1))
            (<[denom a := vadd (vadd da db) dc]> (vecs st1)) (next st1), a)).
  { apply update_some; simpl.
    - apply lookup_insert_eq.
    - rewrite lookup_insert_ne by exact Nac. exact Hc.
    - apply lookup_insert_eq.
    - rewrite lookup_insert_ne by exact Dac. exact Hdc.
    - rewrite map_length_madd by exact Hab. rewrite Hab. exact Hbc.
    - rewrite length_vadd by exact Hdab. rewrite Hdab. exact Hdbc. }
  (* update(update(b, a), c) *)
  pose proof (update_some st b a mb ma db da Hb Ha Hdb Hda (eq_sym Hab) (eq_sym Hdab)) as U3.
  set (st3 := mkState _ _ _ _) in U3.
  assert (U4 : update st3 b (Some c) =
    Some (mkState (probabilities st3) (<[num b := madd (madd mb ma) mc]> (mats st3))
            (<[denom b := vadd (vadd db da) dc]> (vecs st3)) (next st3), b)).
  { apply update_some; simpl.
    - apply lookup_insert_eq.
    - rewrite lookup_insert_ne by exact Nbc. exact Hc.
    - apply lookup_insert_eq.
    - rewrite lookup_insert_ne by exact Dbc. exact Hdc.
    - rewrite map_length_madd by exact (eq_sym Hab). exact Hbc.
    - rewrite length_vadd by exact (eq_sym Hdab). exact Hdbc. }
  (* update(a, update(b, c)) *)
  pose proof (update_some st b c mb mc db dc Hb Hc Hdb Hdc Hbc Hdbc) as U5.
  set (st5 := mkState _ _ _ _) in U5.
  assert (U6 : update st5 a (Some b) =
    Some (mkState (probabilities st5) (<[num a := madd ma (madd mb mc)]> (mats st5))
            (<[denom a := vadd da (vadd db dc)]> (vecs st5)) (next st5), a)).
  { apply update_some; simpl.
    - rewrite lookup_insert_ne by (intros E; apply Nab; symmetry; exact E). exact Ha.
    - apply lookup_insert_eq.
    - rewrite lookup_insert_ne by (intros E; apply Dab; symmetry; exact E). exact Hda.
    - apply lookup_insert_eq.
    - rewrite map_length_madd by exact Hbc. exact Hab.
    - rewrite length_vadd by exact Hdbc. exact Hdab. }
  do 12 eexists.
  split; [exact U1|]. split; [exact U2|].
  split; [exact U3|]. split; [exact U4|].
  split; [exact U5|]. split; [exact U6|].
  simpl. rewrite !lookup_insert_eq.
  rewrite (madd_comm mb ma), (vadd_comm db da), madd_assoc, vadd_assoc.
  repeat split; reflexivity.
Qed.

Section Fold_invariant.

Lemma Forall_nth' {A} (P : A -> Prop) (l : list A) (d : A) k :
  Forall P l -> P d -> P (nth k l d).
Proof.
  intros Hl Hd. revert k. induction Hl as [|x l Hx Hl IH]; intros [|k]; simpl; auto.
Qed.

Lemma Forall_of_nth {A} (P : A -> Prop) (l : list A) (d : A) :
  (forall v, v < length l -> P (nth v l d)) -> Forall P l.
Proof.
  intros H. apply List.Forall_forall. intros x Hx.
  apply (In_nth _ _ d) in Hx as [v [Hv <-]]. apply H, Hv.
Qed.

Lemma Qc_sum_nonneg_zero (a b : Qc) :
  (0 <= a)%Qc -> (0 <= b)%Qc -> (a + b = 0)%Qc -> a = 0%Qc /\ b = 0%Qc.
Proof.
  intros Ha Hb Hs.
  assert (Ha' : (a <= 0)%Qc).
  { rewrite <- Hs. rewrite <- (Qcplus_0_r a) at 1.
    apply Qcplus_le_compat; [apply Qcle_refl | exact Hb]. }
  assert (a = 0%Qc) as -> by (apply Qcle_antisym; assumption).
  split; [reflexivity|]. rewrite Qcplus_0_l in Hs. exact Hs.
Qed.

Lemma Qc_sum_nonneg (a b : Qc) :
  (0 <= a)%Qc -> (0 <= b)%Qc -> (0 <= a + b)%Qc.
Proof.
  intros Ha Hb. rewrite <- (Qcplus_0_r 0%Qc). apply Qcplus_le_compat; assumption.
Qed.

Lemma Forall_vadd (P Q R : Qc -> Prop) a b :
  (forall x y, P x -> Q y -> R (x + y)%Qc) ->
  Forall P a -> Forall Q b -> Forall R (vadd a b).
Proof.
  intros H Ha. revert b. induction Ha as [|x a Hx Ha IH]; intros [|y b] Hb;
    simpl; constructor.
  - inversion Hb; subst. apply H; assumption.
  - inversion Hb; subst. apply IH. assumption.
Qed.

Lemma nth_madd a b k :
  k < length a -> k < length b -> nth k (madd a b) [] = vadd (nth k a []) (nth k b []).
Proof.
  revert b k. induction a as [|x a IH]; intros [|y b] k Ha Hb; simpl in *; try lia.
  destruct k as [|k]; [reflexivity|]. apply IH; lia.
Qed.

Lemma num_spec_nonneg data rows k v :
  Forall (Forall (fun x => 0 <= x)%Qc) rows -> (0 <= num_spec data rows k v)%Qc.
Proof.
  revert rows. induction data as [|d ds IH]; intros [|r rs] H; simpl;
    try apply Qcle_refl.
  inversion H as [|? ? Hr Hrs]; subst.
  apply Qc_sum_nonneg; [|apply IH, Hrs].
  destruct (d =? v); [apply (Forall_nth' _ _ _ _ Hr), Qcle_refl | apply Qcle_refl].
Qed.

Lemma denom_spec_nonneg rows k :
  Forall (Forall (fun x => 0 <= x)%Qc) rows -> (0 <= denom_spec rows k)%Qc.
Proof.
  induction 1 as [|r rs Hr Hrs IH]; simpl; [apply Qcle_refl|].
  apply Qc_sum_nonneg; [apply (Forall_nth' _ _ _ _ Hr), Qcle_refl | exact IH].
Qed.

(** A zero total responsibility leaves no mass for any symbol. *)
Lemma denom_spec_zero data rows k v :
  Forall (Forall (fun x => 0 <= x)%Qc) rows ->
  denom_spec rows k = 0%Qc -> num_spec data rows k v = 0%Qc.
Proof.
  revert data. induction rows as [|r rs IH]; intros [|d ds] H Hz; simpl; auto.
  inversion H as [|? ? Hr Hrs]; subst. simpl in Hz.
  destruct (Qc_sum_nonneg_zero _ _ (Forall_nth' _ _ _ k Hr (Qcle_refl 0%Qc))
              (denom_spec_nonneg rs k Hrs) Hz) as [H1 H2].
  rewrite IH by assumption. destruct (d =? v); [rewrite H1|]; reflexivity.
Qed.

End Fold_invariant.

Section Fold_steps.

Lemma scatter_ok_inv K V data g :
  scatter_ok K V data g = true ->
  Forall (fun r => length r = rcols g) (rrows g) /\ K <= rcols g /\
  length data <= length (rrows g) /\ (0 < K -> Forall (fun v => v < V) data).
Proof.
  unfold scatter_ok, resp_wf.
  intros H. apply andb_prop in H as [H H4]. apply andb_prop in H as [H H3].
  apply andb_prop in H as [H1 H2].
  split; [|split; [|split]].
  - apply List.Forall_forall. intros r Hr. rewrite forallb_forall in H1.
    apply Nat.eqb_eq, H1, Hr.
  - apply Nat.leb_le, H2.
  - apply Nat.leb_le, H3.
  - intros HK. apply Nat.ltb_lt in HK. rewrite HK in H4. simpl in H4.
    apply List.Forall_forall. intros v Hv. rewrite forallb_forall in H4.
    apply Nat.ltb_lt, H4, Hv.
Qed.

Lemma maximize_good st data g st1 loc :
  Forall (Forall (fun x => 0 <= x)%Qc) (rrows g) ->
  maximize st data g = Some (st1, loc) ->
  good (num_states st) (num_outputs st) st1 loc /\
  probabilities st1 = probabilities st /\ next st < next st1 /\
  (forall i, i < next st -> mats st1 !! i = mats st !! i /\ vecs st1 !! i = vecs st !! i).
Proof.
  intros Hnn. unfold maximize.
  set (K := num_states st). set (V := num_outputs st).
  destruct (scatter_ok K V data g) eqn:Hok; [|discriminate].
  intros [= <- <-].
  apply scatter_ok_inv in Hok as (Hwf & HK & Hlen & Hdata).
  set (numt := scatter_add (zeros K V) data (rrows g)).
  set (dent := col_sums (rcols g) (rrows g)).
  assert (Hrow : forall k v, k < K ->
    nth v (nth k numt []) 0%Qc = num_spec data (rrows g) k v).
  { intros k v Hk. unfold numt. rewrite nth_scatter_add.
    - rewrite nth_zeros, nth_repeat by exact Hk. apply Qcplus_0_l.
    - rewrite length_zeros. exact Hk.
    - eapply Forall_impl; [exact Hwf|]. intros r Hr. simpl in Hr. lia.
    - rewrite nth_zeros, repeat_length by exact Hk. apply Hdata. lia. }
  assert (Hshape : map length numt = repeat V K).
  { unfold numt. rewrite map_length_scatter_add. unfold zeros.
    rewrite map_repeat, repeat_length. reflexivity. }
  assert (HrowV : forall k, k < K -> length (nth k numt []) = V).
  { intros k Hk. rewrite nth_map_length, Hshape. apply nth_repeat_lt, Hk. }
  simpl. split; [|split; [reflexivity|split; [lia|]]].
  - unfold good; simpl. split; [lia|]. split; [lia|].
    exists numt, dent. split; [apply lookup_insert_eq|].
    split; [apply lookup_insert_eq|]. split; [exact Hshape|].
    split; [unfold dent; rewrite length_col_sums by exact Hwf; exact HK|].
    intros k Hk. unfold dent. rewrite nth_col_sums by (try lia; exact Hwf).
    split; [apply denom_spec_nonneg, Hnn|]. split.
    + apply (Forall_of_nth _ _ 0%Qc). intros v Hv.
      rewrite Hrow by exact Hk. apply num_spec_nonneg, Hnn.
    + intros Hz. apply (Forall_of_nth _ _ 0%Qc). intros v Hv.
      rewrite Hrow by exact Hk. apply denom_spec_zero; assumption.
  - intros i Hi. rewrite !lookup_insert_ne by lia. split; reflexivity.
Qed.

Lemma good_frame K V st st1 a :
  good K V st a -> next st <= next st1 ->
  (forall i, i < next st -> mats st1 !! i = mats st !! i /\ vecs st1 !! i = vecs st !! i) ->
  good K V st1 a.
Proof.
  intros (Hn & Hd & m & d & Hm & Hv & Hrest) Hle Hfr.
  split; [lia|]. split; [lia|]. exists m, d.
  rewrite (proj1 (Hfr _ Hn)), (proj2 (Hfr _ Hd)). auto.
Qed.

Lemma update_some_inv st a b st' r :
  update st a (Some b) = Some (st', r) ->
  exists ma mb da db,
    mats st !! num a = Some ma /\ mats st !! num b = Some mb /\
    vecs st !! denom a = Some da /\ vecs st !! denom b = Some db /\
    map length ma = map length mb /\ length da = length db.
Proof.
  unfold update, iadd_mat, iadd_vec.
  destruct (mats st !! num a) as [ma|]; [|discriminate].
  destruct (mats st !! num b) as [mb|]; [|discriminate].
  destruct (bool_decide (map length ma = map length mb)) eqn:Hm; [|discriminate].
  simpl.
  destruct (vecs st !! denom a) as [da|]; [|discriminate].
  destruct (vecs st !! denom b) as [db|]; [|discriminate].
  destruct (bool_decide (length da = length db)) eqn:Hd; [|discriminate].
  intros _. apply bool_decide_eq_true_1 in Hm, Hd. eauto 10.
Qed.

Lemma update_good K V st a b st' r :
  good K V st a -> good K V st b -> update st a (Some b) = Some (st', r) ->
  good K V st' r /\ probabilities st' = probabilities st /\ next st' = next st.
Proof.
  intros Ga Gb Hu.
  destruct (update_some_inv _ _ _ _ _ Hu) as (ma & mb & da & db & Hma & Hmb & Hda & Hdb & Hm & Hd).
  rewrite (update_some st a b ma mb da db Hma Hmb Hda Hdb Hm Hd) in Hu.
  injection Hu as <- <-.
  destruct Ga as (Hna & Hda' & m1 & d1 & Hm1 & Hd1 & Hsh1 & HK1 & Hk1).
  destruct Gb as (_ & _ & m2 & d2 & Hm2 & Hd2 & Hsh2 & HK2 & Hk2).
  rewrite Hma in Hm1. injection Hm1 as <-. rewrite Hmb in Hm2. injection Hm2 as <-.
  rewrite Hda in Hd1. injection Hd1 as <-. rewrite Hdb in Hd2. injection Hd2 as <-.
  assert (HlenA : length ma = K).
  { rewrite <- (length_map length ma), Hsh1. apply repeat_length. }
  assert (HlenB : length mb = K).
  { rewrite <- (length_map length mb), Hsh2. apply repeat_length. }
  simpl. split; [|split; reflexivity].
  split; [exact Hna|]. split; [exact Hda'|].
  exists (madd ma mb), (vadd da db).
  split; [apply lookup_insert_eq|]. split; [apply lookup_insert_eq|].
  split; [rewrite map_length_madd by exact Hm; exact Hsh1|].
  split; [rewrite length_vadd by exact Hd; exact HK1|].
  intros k Hk.
  destruct (Hk1 k Hk) as (Hd1k & Hr1 & Hz1). destruct (Hk2 k Hk) as (Hd2k & Hr2 & Hz2).
  rewrite nth_vadd by lia. rewrite nth_madd by lia.
  split; [apply Qc_sum_nonneg; assumption|]. split.
  - apply (Forall_vadd _ _ _ _ _ Qc_sum_nonneg Hr1 Hr2).
  - intros Hz. destruct (Qc_sum_nonneg_zero _ _ Hd1k Hd2k Hz) as [Z1 Z2].
    apply (Forall_vadd (fun x => x = 0%Qc) (fun x => x = 0%Qc)).
    + intros x y -> ->. apply Qcplus_0_l.
    + apply Hz1, Z1.
    + apply Hz2, Z2.
Qed.

Lemma fit_good st acc bs st' r :
  nonneg_batches bs ->
  fit_epoch st acc bs = Some (st', Some r) ->
  match acc with
  | None => True
  | Some a => good (num_states st) (num_outputs st) st a
  end ->
  good (num_states st) (num_outputs st) st' r /\
  probabilities st' = probabilities st.
Proof.
  revert st acc. induction bs as [|[data g] bs IH]; intros st acc Hnn Hfit Hacc.
  - simpl in Hfit. injection Hfit as <- ->. split; [exact Hacc | reflexivity].
  - inversion Hnn as [|? ? Hg Hbs]; subst. simpl in Hfit.
    destruct (maximize st data g) as [[st1 loc]|] eqn:Hmax; [|discriminate].
    destruct (maximize_good _ _ _ _ _ Hg Hmax) as (Gloc & Hp1 & Hnext & Hfr).
    destruct (update st1 loc acc) as [[st2 merged]|] eqn:Hup; [|discriminate].
    assert (G2 : good (num_states st) (num_outputs st) st2 merged /\
                 probabilities st2 = probabilities st).
    { destruct acc as [a|].
      - apply good_frame with (st1 := st1) in Hacc; [|lia|exact Hfr].
        destruct (update_good _ _ _ _ _ _ _ Gloc Hacc Hup) as (G & Hp & _).
        split; [exact G | congruence].
      - rewrite update_none in Hup. injection Hup as <- <-. split; assumption. }
    destruct G2 as [G2 Hp2].
    unfold num_states, num_outputs in *. rewrite <- Hp2 in G2 |- *.
    apply (IH st2 (Some merged) Hbs Hfit G2).
Qed.

Lemma fdiv_zero_zero : fdiv (Fin 0%Qc) (Fin 0%Qc) = NaN.
Proof.
  unfold fdiv. destruct (Qc_eq_dec 0%Qc 0%Qc) as [_|Hne]; [reflexivity|].
  exfalso. apply Hne. reflexivity.
Qed.

(** [apply] on a record with [denom[k] = 0] and an all-zero row [num[k]]
    puts a [0 / 0] in row [k], whatever the broadcast. *)
Lemma apply_zero_row_nan K V st r st2 k d :
  good K V st r -> 0 < V -> k < K ->
  vecs st !! denom r = Some d -> nth k d 0%Qc = 0%Qc ->
  apply st r = Some st2 ->
  k < length (probabilities st2) /\ In NaN (nth k (probabilities st2) []).
Proof.
  intros (_ & _ & m & d' & Hm & Hd' & Hsh & HKd & Hk) HV HkK Hd Hz Happ.
  rewrite Hd in Hd'. injection Hd' as <-.
  destruct (Hk k HkK) as (_ & _ & Hzero). specialize (Hzero Hz).
  unfold apply in Happ. rewrite Hm, Hd in Happ.
  destruct (bdiv m d) as [p|] eqn:Hb; [|discriminate].
  injection Happ as <-. simpl.
  assert (Hlen : length m = K).
  { rewrite <- (length_map length m), Hsh. apply repeat_length. }
  assert (Hw : width m = V).
  { destruct m as [|row0 m']; simpl in *; [lia|].
    destruct K as [|K']; [lia|]. simpl in Hsh. injection Hsh as H0 _. exact H0. }
  unfold bdiv in Hb. rewrite Hw in Hb.
  destruct (bcast_width V (length d)) as [W|] eqn:HW; [|discriminate].
  injection Hb as <-.
  set (L := length d) in *.
  set (w := if L =? 1 then 0 else k).
  assert (HwW : w < W /\ nth (if L =? 1 then 0 else w) d 0%Qc = 0%Qc).
  { unfold bcast_width in HW. unfold w.
    destruct (L =? 1) eqn:HL1.
    - apply Nat.eqb_eq in HL1. assert (k = 0) as -> by lia. split; [|exact Hz].
      destruct (V =? L) eqn:E1; [injection HW as <-; lia|].
      destruct (V =? 1) eqn:E2; [injection HW as <-; lia|].
      injection HW as <-. lia.
    - apply Nat.eqb_neq in HL1. split; [|exact Hz].
      destruct (V =? L) eqn:E1; [apply Nat.eqb_eq in E1; injection HW as <-; lia|].
      destruct (V =? 1) eqn:E2; [injection HW as <-; lia|]. discriminate. }
  destruct HwW as [HwW Hdw].
  rewrite length_map. split; [lia|].
  rewrite (nth_indep _ [] (bdiv_row V L W d [])) by (rewrite length_map; lia).
  rewrite map_nth. unfold bdiv_row.
  apply in_map_iff. exists w. split.
  - rewrite Hdw. rewrite (Forall_nth' (fun x => x = 0%Qc) _ _ _ Hzero eq_refl).
    apply fdiv_zero_zero.
  - apply in_seq. lia.
Qed.

End Fold_steps.

(** C2 (as the code runs): after one epoch on [batches_mixed], the merged
    denominators are [2; 1], both positive, yet row 0 of the new table
    sums to [3/2]: [num / denom] broadcasts [denom] along the last axis
    and divides column [v] by [denom[v]] instead of row [k] by
    [denom[k]]. *)
Theorem apply_row_sum_mixed :
  match run_apply st_uniform batches_mixed with
  | Some (st1, r, st2) =>
      vecs st1 !! denom r = Some [qc 2; qc 1] /\
      probabilities st2 = [[Fin (qf 1 2); Fin (qc 1)]; [Fin (qc 0); Fin (qc 1)]] /\
      fsum (nth 0 (probabilities st2) []) = Fin (qf 3 2)
  | None => False
  end.
Proof.
  apply (bool_decide_eq_true_1 _). vm_compute. reflexivity.
Qed.

(** C3 (counterexample): state 1 receives no responsibility in
    [batches_unseen], so [denom[1] = 0]; [apply] does not keep row 1 of
    the table, and the new row 1 holds a NaN. *)
Lemma zero_row_not_kept :
  match run_apply st_uniform batches_unseen with
  | Some (st1, r, st2) =>
      vecs st1 !! denom r = Some [qc 1; qc 0] /\
      nth 1 (probabilities st2) [] <> nth 1 (probabilities st_uniform) [] /\
      In NaN (nth 1 (probabilities st2) [])
  | None => False
  end.
Proof.
  vm_compute. split; [|split].
  - apply (bool_decide_eq_true_1 _). vm_compute. reflexivity.
  - intros H. inversion H.
  - right. left. reflexivity.
Qed.

(** C3 (amended): [apply] has no zero-denominator guard.  For a head
    with at least one symbol, after an epoch fold of [maximize] outputs
    with non-negative responsibilities, a state [k] with [denom[k] = 0]
    gets a row holding a NaN ([0 / 0]) when [apply] returns: its previous
    row is not kept. *)
Theorem apply_zero_denominator_nan (st : state) (bs : list (list nat * resp))
    (st1 st2 : state) (r : stats) (d : list Qc) (k : nat) :
  nonneg_batches bs -> 0 < num_outputs st -> k < num_states st ->
  fit_epoch st None bs = Some (st1, Some r) ->
  vecs st1 !! denom r = Some d -> nth k d 0%Qc = 0%Qc ->
  apply st1 r = Some st2 ->
  k < length (probabilities st2) /\ In NaN (nth k (probabilities st2) []).
Proof.
  intros Hnn HV Hk Hfit Hd Hz Happ.
  destruct (fit_good st None bs st1 r Hnn Hfit I) as [G _].
  exact (apply_zero_row_nan _ _ st1 r st2 k d G HV Hk Hd Hz Happ).
Qed.

(** ** Witnesses *)

Ltac qc_le := vm_compute; intros ?; discriminate.

Lemma apply_zero_denominator_nan_witness :
  exists st1 st2 r d,
    fit_epoch st_uniform None batches_unseen = Some (st1, Some r) /\
    vecs st1 !! denom r = Some d /\ nth 1 d 0%Qc = 0%Qc /\
    apply st1 r = Some st2 /\
    (1 < length (probabilities st2) /\ In NaN (nth 1 (probabilities st2) [])).
Proof.
  do 4 eexists.
  split; [reflexivity|]. split; [reflexivity|].
  split; [apply (bool_decide_eq_true_1 _); vm_compute; reflexivity|].
  split; [reflexivity|].
  eapply (apply_zero_denominator_nan st_uniform batches_unseen _ _ _ _ 1).
  - repeat constructor; simpl; qc_le.
  - vm_compute. lia.
  - vm_compute. lia.
  - reflexivity.
  - reflexivity.
  - apply (bool_decide_eq_true_1 _). vm_compute. reflexivity.
  - reflexivity.
Defined.

Lemma maximize_statistics_witness :
  exists st' r numt dent,
    maximize st_uniform [0; 1; 1]
      (mkResp (num_states st_uniform) [[qc 1; qc 0]; [qc 0; qc 1]; [qc 1; qc 0]])
      = Some (st', r) /\
    probabilities st' = probabilities st_uniform /\
    mats st' !! num r = Some numt /\ vecs st' !! denom r = Some dent /\
    length numt = num_states st_uniform /\
    Forall (fun row => length row = num_outputs st_uniform) numt /\
    length dent = num_states st_uniform /\
    (forall k v, k < num_states st_uniform -> v < num_outputs st_uniform ->
       nth v (nth k numt []) 0%Qc =
       num_spec [0; 1; 1] [[qc 1; qc 0]; [qc 0; qc 1]; [qc 1; qc 0]] k v) /\
    (forall k, k < num_states st_uniform ->
       nth k dent 0%Qc = denom_spec [[qc 1; qc 0]; [qc 0; qc 1]; [qc 1; qc 0]] k).
Proof.
  apply maximize_statistics.
  - repeat constructor.
  - reflexivity.
  - repeat constructor; vm_compute; lia.
Defined.

Lemma update_mutates_current_witness :
  exists st',
    update st_three (mkStats 0 0) (Some (mkStats 1 1)) = Some (st', mkStats 0 0) /\
    mats st' !! num (mkStats 0 0) = Some (madd [[qc 1; qc 2]] [[qc 3; qc 4]]) /\
    vecs st' !! denom (mkStats 0 0) = Some (vadd [qc 3] [qc 7]) /\
    probabilities st' = probabilities st_three.
Proof.
  apply update_mutates_current; reflexivity.
Defined.

Lemma update_merge_laws_witness :
  update st_three (mkStats 0 0) None = Some (st_three, mkStats 0 0) /\
  exists st1 r1 st2 r2 st3 r3 st4 r4 st5 r5 st6 r6,
    update st_three (mkStats 0 0) (Some (mkStats 1 1)) = Some (st1, r1) /\
    update st1 r1 (Some (mkStats 2 2)) = Some (st2, r2) /\
    update st_three (mkStats 1 1) (Some (mkStats 0 0)) = Some (st3, r3) /\
    update st3 r3 (Some (mkStats 2 2)) = Some (st4, r4) /\
    update st_three (mkStats 1 1) (Some (mkStats 2 2)) = Some (st5, r5) /\
    update st5 (mkStats 0 0) (Some r5) = Some (st6, r6) /\
    mats st2 !! num r2 = Some (madd (madd [[qc 1; qc 2]] [[qc 3; qc 4]]) [[qc 5; qc 6]]) /\
    mats st4 !! num r4 = Some (madd (madd [[qc 1; qc 2]] [[qc 3; qc 4]]) [[qc 5; qc 6]]) /\
    mats st6 !! num r6 = Some (madd (madd [[qc 1; qc 2]] [[qc 3; qc 4]]) [[qc 5; qc 6]]) /\
    vecs st2 !! denom r2 = Some (vadd (vadd [qc 3] [qc 7]) [qc 11]) /\
    vecs st4 !! denom r4 = Some (vadd (vadd [qc 3] [qc 7]) [qc 11]) /\
    vecs st6 !! denom r6 = Some (vadd (vadd [qc 3] [qc 7]) [qc 11]).
Proof.
  apply update_merge_laws; (reflexivity || (simpl; lia)).
Defined.

(** ** The Gaussian head *)

Section Gaussian_lemmas.

Lemma fill_one_zeros K D :
  fill_one (CovMat (zeros K D)) = CovMat (repeat (repeat 1%Qc D) K).
Proof.
  simpl. unfold zeros. rewrite map_repeat, map_repeat. reflexivity.
Qed.

Lemma fill_one_vec n : fill_one (CovVec (repeat 0%Qc n)) = CovVec (repeat 1%Qc n).
Proof. simpl. rewrite map_repeat. reflexivity. Qed.

End Gaussian_lemmas.

(** C1 (as the code runs): [Gaussian.update] returns [None] and
    [Gaussian.apply] changes nothing, for every head and every record.
    On a one-component, one-feature [diag] head with mean 0 and the
    points 2 and 4 fully assigned to it, [maximize] yields the mean 3,
    yet [apply] leaves the mean at 0. *)
Theorem gaussian_apply_keeps_parameters :
  (forall (g : gaussian) (u : option gstats), gaussian_apply g u = g) /\
  (forall (c : gstats) (p : option gstats), gaussian_update c p = None) /\
  match gaussian_init 1 1 "diag"%string (fun _ _ => 0%Qc) with
  | Some g =>
      match gaussian_maximize g [[qc 2]; [qc 4]] [[qc 1]; [qc 1]] with
      | Some u =>
          g_means u = [[qc 3]] /\
          means (gaussian_apply g (gaussian_update u None)) = [[qc 0]] /\
          means (gaussian_apply g (Some u)) = [[qc 0]]
      | None => False
      end
  | None => False
  end.
Proof.
  split; [reflexivity|]. split; [reflexivity|].
  vm_compute. repeat split; apply (bool_decide_eq_true_1 _); vm_compute; reflexivity.
Qed.

(** C6 (counterexample): [Gaussian.__init__] with the covariance name
    ["bogus"] builds a head, and [_get_full_covariance_matrix(0)] of that
    head returns a matrix. *)
Lemma init_accepts_unknown_covariance :
  exists g, gaussian_init 2 3 "bogus"%string (fun _ _ => 0%Qc) = Some g /\
            get_full_covariance_matrix g 0 = Some (scaled_eye 1%Qc 3).
Proof.
  eexists. split; [reflexivity|]. reflexivity.
Qed.

(** C6 (amended): [Gaussian.__init__] does not check the covariance name:
    it builds a head for every string, keeps the name, and gives every
    name other than ["diag"] and ["spherical"] a covariance vector of
    length [D] filled with ones. *)
Theorem init_total (K D : nat) (cov : string) (draw : nat -> nat -> Qc) :
  exists g, gaussian_init K D cov draw = Some g /\
    covariance g = cov /\
    (String.eqb cov "diag"%string = false -> String.eqb cov "spherical"%string = false ->
     covars g = CovVec (repeat 1%Qc D)).
Proof.
  eexists. split; [reflexivity|]. split; [reflexivity|].
  intros H1 H2. simpl. rewrite H1, H2. apply fill_one_vec.
Qed.

(** C7 (counterexample): with the name ["full"], two components and three
    features, the covariance is a single vector of length 3, not a
    [3 x 3] matrix per component, and the reconstruction of component 0
    is [covars[0] * I]. *)
Lemma full_covariance_is_vector :
  exists g, gaussian_init 2 3 "full"%string (fun _ _ => 0%Qc) = Some g /\
    covars g = CovVec (repeat 1%Qc 3) /\
    get_full_covariance_matrix g 0 = Some (scaled_eye 1%Qc 3).
Proof.
  eexists. split; [reflexivity|]. split; [reflexivity|]. reflexivity.
Qed.

(** C7 (amended): the constructor records [D] features (also when
    [K = 0]) and stores a [K x D] covariance for
    ["diag"], a length-[K] vector for ["spherical"], and a single
    length-[D] vector for every other name (["diag-shared"] and ["full"]
    included).  [_get_full_covariance_matrix(i)] puts [covars[i]] on a
    diagonal for ["diag"], puts the shared [covars] on a diagonal for
    ["diag-shared"] whatever [i], and scales the [D x D] identity
    ([D = num_features]) by the scalar [covars[i]] for every other name. *)
Theorem covariance_modes :
  (forall (K D : nat) (cov : string) (draw : nat -> nat -> Qc),
     exists g, gaussian_init K D cov draw = Some g /\
       num_features g = D /\
       covars g =
         (if String.eqb cov "diag"%string then CovMat (repeat (repeat 1%Qc D) K)
          else if String.eqb cov "spherical"%string then CovVec (repeat 1%Qc K)
          else CovVec (repeat 1%Qc D))) /\
  (forall (g : gaussian) (m : matrix) (i : nat) (row : list Qc),
     covariance g = "diag"%string -> covars g = CovMat m -> m !! i = Some row ->
     get_full_covariance_matrix g i = Some (diag row)) /\
  (forall (g : gaussian) (v : list Qc) (i : nat),
     covariance g = "diag-shared"%string -> covars g = CovVec v ->
     get_full_covariance_matrix g i = Some (diag v)) /\
  (forall (g : gaussian) (v : list Qc) (i : nat) (s : Qc),
     covariance g <> "diag"%string -> covariance g <> "diag-shared"%string ->
     covars g = CovVec v -> v !! i = Some s ->
     get_full_covariance_matrix g i = Some (scaled_eye s (num_features g))).
Proof.
  split; [|split; [|split]].
  - intros K D cov draw. eexists. split; [reflexivity|]. split; [reflexivity|]. simpl.
    destruct (String.eqb cov "diag"%string); [apply fill_one_zeros|].
    destruct (String.eqb cov "spherical"%string); apply fill_one_vec.
  - intros g m i row Hc Hv Hi. unfold get_full_covariance_matrix.
    rewrite Hc, Hv, Hi. reflexivity.
  - intros g v i Hc Hv. unfold get_full_covariance_matrix.
    rewrite Hc, Hv. reflexivity.
  - intros g v i s Hc1 Hc2 Hv Hi. unfold get_full_covariance_matrix.
    apply String.eqb_neq in Hc1, Hc2. rewrite Hc1, Hc2, Hv, Hi. reflexivity.
Qed.

(** ** [Discrete.evaluate] and [Gaussian.evaluate] *)

(** C9: [evaluate] leaves the parameters unchanged and gives the same
    output when called twice with the same input: for the Gaussian head
    for every density kernel [log_normal] and every [exp], and for the
    Discrete head with [normalize] as the spec describes it. *)
Theorem evaluate_pure
    (log_normal : matrix -> matrix -> covars_t -> list (list fl)) (fexp : fl -> fl)
    (g : gaussian) (xs : matrix) (log : bool) (st : state) (data : list nat) :
  (let '(g1, o1) := gaussian_evaluate log_normal fexp g xs log in
   let '(g2, o2) := gaussian_evaluate log_normal fexp g1 xs log in
   g1 = g /\ g2 = g /\ o1 = o2) /\
  match discrete_evaluate st data with
  | Some (st1, o1) => st1 = st /\ discrete_evaluate st1 data = Some (st, o1)
  | None => True
  end.
Proof.
  split; [simpl; auto|].
  unfold discrete_evaluate.
  destruct (gather_columns (probabilities st) data) as [t|] eqn:Ht; [|exact I].
  split; [reflexivity|]. rewrite Ht. reflexivity.
Qed.

(** ** The number of states of the Markov chain *)

Section Num_states_lemmas.

Lemma wrap64_small (z : Z) :
  (- 2 ^ 63 <= z < 2 ^ 63)%Z -> wrap64 z = z.
Proof.
  intros H. unfold wrap64. rewrite Z.mod_small; lia.
Qed.



End Num_states_lemmas.




(** ** Further properties of the output heads and of the state count *)

Section Reset_lemmas.

Lemma fsum_Fin (l : list Qc) : fsum (map Fin l) = Fin (qsum l).
Proof. induction l as [|x l IH]; simpl; [reflexivity|]. rewrite IH. reflexivity. Qed.

Lemma qsum_div (l : list Qc) (s : Qc) :
  qsum (map (fun x => x / s) l)%Qc = (qsum l / s)%Qc.
Proof.
  induction l as [|x l IH]; simpl; unfold Qcdiv in *; [ring|]. rewrite IH. ring.
Qed.

Lemma Qcinv_nonneg s : (0 <= s)%Qc -> (0 <= / s)%Qc.
Proof.
  intros H. unfold Qcle, Qcinv, Q2Qc. cbn [this].
  apply (Qle_trans _ _ _ (Qle_refl 0%Q)).
  rewrite (Qred_correct (/ s)). apply Qinv_le_0_compat. exact H.
Qed.

Lemma Qcdiv_nonneg x s : (0 <= x)%Qc -> (0 <= s)%Qc -> (0 <= x / s)%Qc.
Proof.
  intros Hx Hs. unfold Qcdiv. rewrite <- (Qcmult_0_l (/ s)).
  apply Qcmult_le_compat_r; [exact Hx|]. apply Qcinv_nonneg, Hs.
Qed.

Lemma qsum_nonneg l : Forall (fun x => 0 <= x)%Qc l -> (0 <= qsum l)%Qc.
Proof.
  induction 1 as [|x l Hx Hl IH]; simpl; [apply Qcle_refl|].
  apply Qc_sum_nonneg; assumption.
Qed.

Lemma qsum_zero l :
  Forall (fun x => 0 <= x)%Qc l -> qsum l = 0%Qc -> Forall (fun x => x = 0%Qc) l.
Proof.
  induction 1 as [|x l Hx Hl IH]; simpl; intros Hz; constructor.
  - exact (proj1 (Qc_sum_nonneg_zero _ _ Hx (qsum_nonneg _ Hl) Hz)).
  - apply IH. exact (proj2 (Qc_sum_nonneg_zero _ _ Hx (qsum_nonneg _ Hl) Hz)).
Qed.

(** Row [k] of the reset table. *)
Lemma reset_row (draw : nat -> nat -> Qc) (k : nat) (row : list fl) :
  (let u := imap (fun v _ => Fin (draw k v)) row in
   map (fun x => fdiv x (fsum u)) u) =
  map (fun x => fdiv (Fin x) (Fin (qsum (map (draw k) (seq 0 (length row))))))
      (map (draw k) (seq 0 (length row))).
Proof.
  simpl. rewrite (imap_seq_0 row (fun v => Fin (draw k v))).
  change (fmap (fun v => Fin (draw k v)) (seq 0 (length row)))
    with (map (fun v => Fin (draw k v)) (seq 0 (length row))).
  rewrite <- (map_map (draw k) Fin), fsum_Fin, map_map. reflexivity.
Qed.

End Reset_lemmas.

(** [Discrete.reset_parameters] keeps the shape of the table and leaves
    every statistics tensor alone.  With non-negative draws, a row whose
    draws have a non-zero sum becomes a row of non-negative finite
    entries summing to 1; a row whose draws are all zero becomes a row
    of NaN ([0 / 0]). *)
Theorem reset_rows_normalised (draw : nat -> nat -> Qc) (st : state) :
  (forall k v, 0 <= draw k v)%Qc ->
  map length (probabilities (discrete_reset draw st)) = map length (probabilities st) /\
  mats (discrete_reset draw st) = mats st /\ vecs (discrete_reset draw st) = vecs st /\
  forall k row, probabilities st !! k = Some row ->
    exists row', probabilities (discrete_reset draw st) !! k = Some row' /\
      (qsum (map (draw k) (seq 0 (length row))) <> 0%Qc ->
         fsum row' = Fin 1%Qc /\ Forall (fun x => exists q, x = Fin q /\ 0 <= q)%Qc row') /\
      (qsum (map (draw k) (seq 0 (length row))) = 0%Qc -> Forall (fun x => x = NaN) row').
Proof.
  intros Hdraw. unfold discrete_reset, set_probabilities; simpl.
  split; [|split; [reflexivity|split; [reflexivity|]]].
  - apply list_eq. intros i. rewrite !list_lookup_fmap, list_lookup_imap.
    destruct (probabilities st !! i) as [row|]; [|reflexivity]. simpl.
    f_equal. rewrite reset_row, !length_map, length_seq. reflexivity.
  - intros k row Hk. rewrite list_lookup_imap, Hk. simpl.
    eexists. split; [reflexivity|]. rewrite reset_row.
    set (xs := map (draw k) (seq 0 (length row))).
    assert (Hnn : Forall (fun x => 0 <= x)%Qc xs).
    { apply List.Forall_forall. intros x Hx. unfold xs in Hx.
      apply in_map_iff in Hx as [v [<- _]]. apply Hdraw. }
    split.
    + intros Hs.
      assert (Hdiv : map (fun x => fdiv (Fin x) (Fin (qsum xs))) xs =
                     map Fin (map (fun x => x / qsum xs)%Qc xs)).
      { rewrite map_map. apply map_ext. intros x. unfold fdiv.
        destruct (Qc_eq_dec (qsum xs) 0%Qc); [contradiction|reflexivity]. }
      rewrite Hdiv, fsum_Fin, qsum_div. split.
      * f_equal. field. exact Hs.
      * apply List.Forall_forall. intros y Hy. apply in_map_iff in Hy as [q [<- Hq]].
        apply in_map_iff in Hq as [x [<- Hx]]. eexists. split; [reflexivity|].
        apply Qcdiv_nonneg; [|apply qsum_nonneg, Hnn].
        rewrite List.Forall_forall in Hnn. apply Hnn, Hx.
    + intros Hz. pose proof (qsum_zero _ Hnn Hz) as Hall.
      apply List.Forall_forall. intros y Hy. apply in_map_iff in Hy as [x [<- Hx]].
      rewrite List.Forall_forall in Hall. rewrite (Hall x Hx), Hz. apply fdiv_zero_zero.
Qed.


Section Epoch_lemmas.

Lemma batch_ok_inv K V b :
  batch_ok K V b = true ->
  rcols (snd b) = K /\ Forall (fun r => length r = K) (rrows (snd b)) /\
  length (fst b) = length (rrows (snd b)) /\ Forall (fun v => v < V) (fst b).
Proof.
  unfold batch_ok, resp_wf. intros H.
  apply andb_prop in H as [H H4]. apply andb_prop in H as [H H3].
  apply andb_prop in H as [H1 H2].
  apply Nat.eqb_eq in H1. apply Nat.eqb_eq in H3.
  split; [exact H1|]. split; [|split; [exact H3|]].
  - apply List.Forall_forall. intros r Hr. rewrite forallb_forall in H2.
    rewrite <- H1. apply Nat.eqb_eq, H2, Hr.
  - apply List.Forall_forall. intros v Hv. rewrite forallb_forall in H4.
    apply Nat.ltb_lt, H4, Hv.
Qed.

Lemma holds_ext K V st r fn fd fn' fd' :
  (forall k v, k < K -> v < V -> fn k v = fn' k v) ->
  (forall k, k < K -> fd k = fd' k) ->
  holds K V st r fn fd -> holds K V st r fn' fd'.
Proof.
  intros En Ed (Hn & Hd & m & d & Hm & Hv & Hsh & Hl & Hk).
  split; [exact Hn|]. split; [exact Hd|]. exists m, d.
  do 4 (split; [assumption|]). intros k Hk'.
  destruct (Hk k Hk') as [H1 H2]. split.
  - intros v Hv'. rewrite <- En by assumption. apply H1, Hv'.
  - rewrite <- Ed by assumption. exact H2.
Qed.

Lemma holds_frame K V st st1 a fn fd :
  holds K V st a fn fd -> next st <= next st1 ->
  (forall i, i < next st -> mats st1 !! i = mats st !! i /\ vecs st1 !! i = vecs st !! i) ->
  holds K V st1 a fn fd.
Proof.
  intros (Hn & Hd & m & d & Hm & Hv & Hrest) Hle Hfr.
  split; [lia|]. split; [lia|]. exists m, d.
  rewrite (proj1 (Hfr _ Hn)), (proj2 (Hfr _ Hd)). auto.
Qed.

Lemma maximize_holds st data g :
  batch_ok (num_states st) (num_outputs st) (data, g) = true ->
  exists st1 loc, maximize st data g = Some (st1, loc) /\
    holds (num_states st) (num_outputs st) st1 loc
      (num_spec data (rrows g)) (denom_spec (rrows g)) /\
    probabilities st1 = probabilities st /\ next st < next st1 /\
    (forall i, i < next st -> mats st1 !! i = mats st !! i /\ vecs st1 !! i = vecs st !! i).
Proof.
  intros Hok. apply batch_ok_inv in Hok as (Hc & Hrows & Hlen & Hdata). simpl in *.
  destruct g as [c rows]. simpl in *. subst c.
  set (K := num_states st) in *. set (V := num_outputs st) in *.
  unfold maximize. fold K V.
  rewrite (scatter_ok_intro K V data rows Hrows Hlen Hdata). simpl.
  set (numt := scatter_add (zeros K V) data rows).
  set (dent := col_sums K rows).
  assert (Hshape : map length numt = repeat V K).
  { unfold numt. rewrite map_length_scatter_add. unfold zeros.
    rewrite map_repeat, repeat_length. reflexivity. }
  do 2 eexists. split; [reflexivity|].
  split; [|split; [reflexivity|split; [simpl; lia|]]].
  - split; [simpl; lia|]. split; [simpl; lia|].
    exists numt, dent. simpl.
    split; [apply lookup_insert_eq|]. split; [apply lookup_insert_eq|].
    split; [exact Hshape|]. split; [apply length_col_sums, Hrows|].
    intros k Hk. split.
    + intros v Hv. unfold numt. rewrite nth_scatter_add.
      * rewrite nth_zeros, nth_repeat by exact Hk. apply Qcplus_0_l.
      * rewrite length_zeros. exact Hk.
      * eapply Forall_impl; [exact Hrows|]. intros r Hr. simpl in Hr. lia.
      * rewrite nth_zeros, repeat_length by exact Hk. exact Hdata.
    + apply nth_col_sums; assumption.
  - intros i Hi. simpl. rewrite !lookup_insert_ne by lia. split; reflexivity.
Qed.

Lemma update_holds K V st a b fa da fb db :
  holds K V st a fa da -> holds K V st b fb db ->
  exists st', update st a (Some b) = Some (st', a) /\
    holds K V st' a (fun k v => fa k v + fb k v)%Qc (fun k => da k + db k)%Qc /\
    probabilities st' = probabilities st /\ next st' = next st.
Proof.
  intros (Hna & Hda & ma & da' & Hma & Hva & Hsha & Hla & Hka)
         (_ & _ & mb & db' & Hmb & Hvb & Hshb & Hlb & Hkb).
  assert (Hm : map length ma = map length mb) by congruence.
  assert (Hd : length da' = length db') by congruence.
  assert (HlenA : length ma = K).
  { rewrite <- (length_map length ma), Hsha. apply repeat_length. }
  assert (HlenB : length mb = K).
  { rewrite <- (length_map length mb), Hshb. apply repeat_length. }
  eexists. split; [apply (update_some st a b ma mb da' db' Hma Hmb Hva Hvb Hm Hd)|].
  simpl. split; [|split; reflexivity].
  split; [exact Hna|]. split; [exact Hda|].
  exists (madd ma mb), (vadd da' db').
  split; [apply lookup_insert_eq|]. split; [apply lookup_insert_eq|].
  split; [rewrite map_length_madd by exact Hm; exact Hsha|].
  split; [rewrite length_vadd by exact Hd; exact Hla|].
  intros k Hk. destruct (Hka k Hk) as [Ha1 Ha2]. destruct (Hkb k Hk) as [Hb1 Hb2].
  split.
  - intros v Hv. rewrite nth_madd by lia.
    assert (Hrow : forall m : matrix, map length m = repeat V K -> length (nth k m []) = V).
    { intros m Hsh. rewrite nth_map_length, Hsh. apply nth_repeat_lt, Hk. }
    rewrite nth_vadd by (rewrite Hrow by assumption; exact Hv).
    rewrite Ha1, Hb1 by exact Hv. reflexivity.
  - rewrite nth_vadd by lia. rewrite Ha2, Hb2. reflexivity.
Qed.

Lemma fit_holds K V bs : forall st a fa da,
  num_states st = K -> num_outputs st = V ->
  Forall (fun b => batch_ok K V b = true) bs ->
  holds K V st a fa da ->
  exists st' r, fit_epoch st (Some a) bs = Some (st', Some r) /\
    probabilities st' = probabilities st /\
    holds K V st' r (fun k v => fa k v + epoch_num_spec bs k v)%Qc
      (fun k => da k + epoch_denom_spec bs k)%Qc.
Proof.
  induction bs as [|[data g] bs IH]; intros st a fa da HK HV Hbs Ha.
  - exists st, a. split; [reflexivity|]. split; [reflexivity|].
    revert Ha. apply holds_ext; intros; simpl; apply eq_sym, Qcplus_0_r.
  - rewrite Forall_cons in Hbs. destruct Hbs as [Hb Hbs'].
    rewrite <- HK, <- HV in Hb.
    destruct (maximize_holds st data g Hb) as (st1 & loc & Hmax & Hloc & Hp1 & Hnext & Hfr).
    rewrite HK, HV in Hloc.
    assert (Ha1 : holds K V st1 a fa da) by (apply (holds_frame K V st); [exact Ha | lia | exact Hfr]).
    destruct (update_holds _ _ _ _ _ _ _ _ _ Hloc Ha1) as (st2 & Hup & Hm & Hp2 & _).
    assert (HK2 : num_states st2 = num_states st) by (unfold num_states; rewrite Hp2, Hp1; reflexivity).
    assert (HV2 : num_outputs st2 = num_outputs st) by (unfold num_outputs; rewrite Hp2, Hp1; reflexivity).
    destruct (IH st2 loc _ _ (eq_trans HK2 HK) (eq_trans HV2 HV) Hbs' Hm)
      as (st' & r & Hfit & Hp' & Hr).
    exists st', r. cbn -[update maximize]. rewrite Hmax, Hup. split; [exact Hfit|].
    split; [congruence|].
    revert Hr. apply holds_ext; intros; unfold epoch_num_spec, epoch_denom_spec; simpl; ring.
Qed.

(** The epoch fold from [None] over well-shaped batches. *)
Lemma epoch_holds st bs :
  bs <> [] ->
  Forall (fun b => batch_ok (num_states st) (num_outputs st) b = true) bs ->
  exists st' r, fit_epoch st None bs = Some (st', Some r) /\
    probabilities st' = probabilities st /\
    holds (num_states st) (num_outputs st) st' r
      (epoch_num_spec bs) (epoch_denom_spec bs).
Proof.
  intros Hne Hbs. destruct bs as [|[data g] bs]; [contradiction|].
  inversion Hbs as [|? ? Hb Hbs']; subst.
  destruct (maximize_holds st data g Hb) as (st1 & loc & Hmax & Hloc & Hp1 & _ & _).
  assert (HK1 : num_states st1 = num_states st) by (unfold num_states; rewrite Hp1; reflexivity).
  assert (HV1 : num_outputs st1 = num_outputs st) by (unfold num_outputs; rewrite Hp1; reflexivity).
  destruct (fit_holds _ _ bs st1 loc _ _ HK1 HV1 Hbs' Hloc) as (st' & r & Hfit & Hp' & Hr).
  exists st', r. cbn -[update maximize]. rewrite Hmax, update_none. split; [exact Hfit|].
  split; [congruence|]. exact Hr.
Qed.

Lemma qsum_map_add {A} (f g : A -> Qc) (l : list A) :
  qsum (map (fun x => f x + g x)%Qc l) = (qsum (map f l) + qsum (map g l))%Qc.
Proof. induction l as [|x l IH]; simpl; [ring|]. rewrite IH. ring. Qed.

Lemma qsum_indicator (d : nat) (c : Qc) s n :
  qsum (map (fun v => if d =? v then c else 0%Qc) (seq s n)) =
  (if (s <=? d) && (d <? s + n) then c else 0%Qc).
Proof.
  revert s. induction n as [|n IH]; intros s; simpl.
  - destruct (s <=? d) eqn:E1, (d <? s + 0) eqn:E2; simpl; try reflexivity.
    apply Nat.leb_le in E1. apply Nat.ltb_lt in E2. lia.
  - rewrite IH. destruct (Nat.eqb_spec d s) as [->|Hne].
    + rewrite Nat.leb_refl. replace (S s <=? s) with false by (symmetry; apply Nat.leb_gt; lia).
      replace (s <? s + S n) with true by (symmetry; apply Nat.ltb_lt; lia).
      simpl. ring.
    + rewrite Qcplus_0_l.
      destruct (Nat.leb_spec (S s) d), (Nat.leb_spec s d),
               (Nat.ltb_spec d (S s + n)), (Nat.ltb_spec d (s + S n));
        simpl; try reflexivity; lia.
Qed.

Lemma qsum_num_spec data rows k V :
  length data = length rows -> Forall (fun v => v < V) data ->
  qsum (map (num_spec data rows k) (seq 0 V)) = denom_spec rows k.
Proof.
  revert rows. induction data as [|d ds IH]; intros [|r rs] Hlen Hd; simpl in *;
    try lia.
  - induction (seq 0 V) as [|x l IHl]; simpl; [reflexivity|]. rewrite IHl. ring.
  - inversion Hd as [|? ? Hd0 Hds]; subst.
    rewrite (qsum_map_add (fun v => if d =? v then nth k r 0%Qc else 0%Qc)
                          (fun v => num_spec ds rs k v)).
    rewrite qsum_indicator, IH by (try lia; exact Hds).
    replace ((0 <=? d) && (d <? 0 + V)) with true
      by (symmetry; apply andb_true_intro; split; [apply Nat.leb_le | apply Nat.ltb_lt]; lia).
    reflexivity.
Qed.

Lemma qsum_epoch bs K V k :
  Forall (fun b => batch_ok K V b = true) bs ->
  qsum (map (epoch_num_spec bs k) (seq 0 V)) = epoch_denom_spec bs k.
Proof.
  induction 1 as [|b bs Hb Hbs IH].
  - unfold epoch_num_spec, epoch_denom_spec; simpl.
    induction (seq 0 V) as [|x l IHl]; simpl; [reflexivity|]. rewrite IHl. ring.
  - apply batch_ok_inv in Hb as (_ & _ & Hlen & Hdata).
    change (epoch_num_spec (b :: bs) k)
      with (fun v => num_spec (fst b) (rrows (snd b)) k v + epoch_num_spec bs k v)%Qc.
    change (epoch_denom_spec (b :: bs) k)
      with (denom_spec (rrows (snd b)) k + epoch_denom_spec bs k)%Qc.
    rewrite qsum_map_add. f_equal; [apply qsum_num_spec; assumption | exact IH].
Qed.

Lemma qsum_nth (row : list Qc) :
  qsum row = qsum (map (fun v => nth v row 0%Qc) (seq 0 (length row))).
Proof.
  induction row as [|x row IH]; simpl; [reflexivity|]. f_equal.
  rewrite IH, <- seq_shift, map_map. reflexivity.
Qed.

End Epoch_lemmas.

(** The epoch fold of [maximize] and [update] over a non-empty list of
    well-shaped batches runs without error and leaves the table as it
    was.  The merged [num] is [K x V] and holds, for every state and
    symbol, the responsibilities summed over all batches; the merged
    [denom] holds the total responsibility of every state; and row [k]
    of [num] sums to [denom[k]]. *)
Theorem epoch_accumulates (st : state) (bs : list (list nat * resp)) :
  bs <> [] ->
  Forall (fun b => batch_ok (num_states st) (num_outputs st) b = true) bs ->
  exists st' r m d,
    fit_epoch st None bs = Some (st', Some r) /\
    probabilities st' = probabilities st /\
    mats st' !! num r = Some m /\ vecs st' !! denom r = Some d /\
    map length m = repeat (num_outputs st) (num_states st) /\
    length d = num_states st /\
    (forall k v, k < num_states st -> v < num_outputs st ->
       nth v (nth k m []) 0%Qc = epoch_num_spec bs k v) /\
    (forall k, k < num_states st ->
       nth k d 0%Qc = epoch_denom_spec bs k /\ qsum (nth k m []) = nth k d 0%Qc).
Proof.
  intros Hne Hbs.
  destruct (epoch_holds st bs Hne Hbs) as (st' & r & Hfit & Hp & Hr).
  destruct Hr as (_ & _ & m & d & Hm & Hd & Hsh & Hl & Hk).
  exists st', r, m, d.
  do 6 (split; [assumption|]). split; [intros k v Hk' Hv; apply (Hk k Hk'), Hv|].
  intros k Hk'. destruct (Hk k Hk') as [Hn Hdk]. split; [exact Hdk|].
  rewrite Hdk, <- (qsum_epoch bs _ (num_outputs st) k Hbs), qsum_nth.
  assert (Hrow : length (nth k m []) = num_outputs st).
  { rewrite nth_map_length, Hsh. apply nth_repeat_lt, Hk'. }
  rewrite Hrow. f_equal. apply map_ext_in. intros v Hv. apply in_seq in Hv.
  apply Hn. lia.
Qed.

Section Apply_lemmas.

Lemma nth_map_seq {A} (f : nat -> A) n w (d : A) :
  w < n -> nth w (map f (seq 0 n)) d = f w.
Proof.
  intros H. rewrite (nth_indep _ d (f 0)) by (rewrite length_map, length_seq; lia).
  rewrite map_nth, seq_nth by lia. reflexivity.
Qed.

Lemma nth_map_lt {A B} (f : A -> B) (l : list A) k (a : A) (b : B) :
  k < length l -> nth k (map f l) b = f (nth k l a).
Proof.
  intros H. rewrite (nth_indep _ b (f a)) by (rewrite length_map; lia).
  apply map_nth.
Qed.

Lemma width_of_shape (m : matrix) V K :
  0 < K -> map length m = repeat V K -> width m = V.
Proof.
  intros HK Hsh. destruct m as [|row m]; destruct K as [|K]; simpl in *; try lia;
    try discriminate.
  injection Hsh as H _. exact H.
Qed.

Lemma length_of_shape (m : matrix) V K : map length m = repeat V K -> length m = K.
Proof. intros Hsh. rewrite <- (length_map length m), Hsh. apply repeat_length. Qed.

Lemma map_length_bdiv V L W d (m : matrix) :
  map length (map (bdiv_row V L W d) m) = repeat W (length m).
Proof.
  induction m as [|row m IH]; simpl; [reflexivity|].
  rewrite IH. unfold bdiv_row. rewrite length_map, length_seq. reflexivity.
Qed.

Lemma apply_cases K V st u m d :
  mats st !! num u = Some m -> vecs st !! denom u = Some d ->
  map length m = repeat V K -> length d = K -> 0 < K ->
  (apply st u = None <-> (V <> K /\ V <> 1 /\ K <> 1)) /\
  (forall st', apply st u = Some st' ->
     mats st' = mats st /\ vecs st' = vecs st /\ next st' = next st /\
     map length (probabilities st') = repeat (if V =? 1 then K else V) K /\
     (V = K -> forall k w, k < K -> w < K ->
        nth w (nth k (probabilities st') []) NaN =
        fdiv (Fin (nth w (nth k m []) 0%Qc)) (Fin (nth w d 0%Qc)))).
Proof.
  intros Hm Hd Hsh Hl HK.
  pose proof (width_of_shape m V K HK Hsh) as Hw.
  pose proof (length_of_shape m V K Hsh) as HlenM.
  unfold apply. rewrite Hm, Hd. unfold bdiv. rewrite Hw, Hl.
  unfold bcast_width.
  destruct (Nat.eqb_spec V K) as [EVK|NVK];
    [|destruct (Nat.eqb_spec V 1) as [EV1|NV1];
      [|destruct (Nat.eqb_spec K 1) as [EK1|NK1]]].
  - split; [split; [discriminate | intros [H _]; contradiction]|].
    intros st' [= <-]. simpl. split; [reflexivity|]. split; [reflexivity|].
    split; [reflexivity|]. split.
    + rewrite map_length_bdiv, HlenM. f_equal; destruct (Nat.eqb_spec V 1); lia.
    + intros _ k w Hk Hwk.
      rewrite (nth_map_lt _ m k []) by lia. unfold bdiv_row.
      rewrite nth_map_seq by lia.
      destruct (Nat.eqb_spec V 1), (Nat.eqb_spec K 1);
        try (assert (w = 0) as -> by lia); reflexivity.
  - split; [split; [discriminate | intros [_ [H _]]; contradiction]|].
    intros st' [= <-]. simpl. split; [reflexivity|]. split; [reflexivity|].
    split; [reflexivity|]. split; [|intros; contradiction].
    rewrite map_length_bdiv, HlenM. f_equal; destruct (Nat.eqb_spec V 1); lia.
  - split; [split; [discriminate | intros [_ [_ H]]; contradiction]|].
    intros st' [= <-]. simpl. split; [reflexivity|]. split; [reflexivity|].
    split; [reflexivity|]. split; [|intros; contradiction].
    rewrite map_length_bdiv, HlenM. f_equal; destruct (Nat.eqb_spec V 1); lia.
  - split; [split; [intros _; lia | reflexivity]|]. intros st' H; discriminate.
Qed.

Lemma map_length_rect (m : matrix) w :
  Forall (fun row => length row = w) m -> map length m = repeat w (length m).
Proof. induction 1; simpl; congruence. Qed.

End Apply_lemmas.

(** [Discrete.apply] on a record with a [K x V] tensor [num] ([K >= 1])
    and a length-[K] tensor [denom] raises exactly when [V <> K],
    [V <> 1] and [K <> 1] (the shapes do not broadcast).  Otherwise it
    leaves the statistics tensors alone and installs a table of [K] rows
    of width [K] when [V = 1] and [V] otherwise; when [V = K], entry
    [k, w] is [num[k][w] / denom[w]]. *)
Theorem apply_broadcast (st : state) (u : stats) (m : matrix) (d : list Qc) :
  mats st !! num u = Some m -> vecs st !! denom u = Some d ->
  m <> [] -> Forall (fun row => length row = width m) m -> length d = length m ->
  (apply st u = None <-> (width m <> length m /\ width m <> 1 /\ length m <> 1)) /\
  (forall st', apply st u = Some st' ->
     mats st' = mats st /\ vecs st' = vecs st /\
     map length (probabilities st') =
       repeat (if width m =? 1 then length m else width m) (length m) /\
     (width m = length m -> forall k w, k < length m -> w < length m ->
        nth w (nth k (probabilities st') []) NaN =
        fdiv (Fin (nth w (nth k m []) 0%Qc)) (Fin (nth w d 0%Qc)))).
Proof.
  intros Hm Hd Hne Hrect Hl.
  assert (HK : 0 < length m) by (destruct m; [contradiction | simpl; lia]).
  destruct (apply_cases (length m) (width m) st u m d Hm Hd
              (map_length_rect m _ Hrect) Hl HK) as [H1 H2].
  split; [exact H1|]. intros st' Hs.
  destruct (H2 st' Hs) as (A & B & _ & C & D). auto.
Qed.

(** For a Discrete head with at least two states and at least two
    symbols and a different number of each, an epoch on well-shaped
    batches always ends in an error at [apply]. *)
Theorem epoch_apply_rejects (st : state) (bs : list (list nat * resp)) :
  bs <> [] ->
  Forall (fun b => batch_ok (num_states st) (num_outputs st) b = true) bs ->
  2 <= num_states st -> 2 <= num_outputs st -> num_outputs st <> num_states st ->
  run_apply st bs = None.
Proof.
  intros Hne Hbs HK HV HVK.
  destruct (epoch_holds st bs Hne Hbs) as (st' & r & Hfit & _ & Hr).
  destruct Hr as (_ & _ & m & d & Hm & Hd & Hsh & Hl & _).
  unfold run_apply. rewrite Hfit.
  destruct (apply_cases _ _ st' r m d Hm Hd Hsh Hl ltac:(lia)) as [[_ H] _].
  rewrite H by lia. reflexivity.
Qed.

Section Evaluate_lemmas.

Lemma mapM_column (p : list (list fl)) v V :
  Forall (fun row => length row = V) p -> v < V ->
  mapM (fun row => row !! v) p = Some (map (fun row => nth v row NaN) p).
Proof.
  induction 1 as [|row p Hr Hp IH]; intros Hv; [reflexivity|].
  destruct (lookup_lt_is_Some_2 row v ltac:(lia)) as [x Hx].
  simpl. rewrite Hx. simpl. rewrite IH by exact Hv. simpl.
  rewrite (nth_lookup_Some row v NaN x Hx). reflexivity.
Qed.

Lemma mapM_column_none (p : list (list fl)) v V :
  p <> [] -> Forall (fun row => length row = V) p -> V <= v ->
  mapM (fun row => row !! v) p = None.
Proof.
  intros Hne Hp Hv. destruct p as [|row p]; [contradiction|].
  inversion Hp as [|? ? Hr _]; subst.
  simpl. rewrite (lookup_ge_None_2 row v) by lia. reflexivity.
Qed.

Lemma mapM_all_some {A B} (f : A -> option B) (l : list A) (g : A -> B) :
  Forall (fun x => f x = Some (g x)) l -> mapM f l = Some (map g l).
Proof.
  induction 1 as [|x l Hx Hl IH]; [reflexivity|].
  simpl. rewrite Hx. simpl. rewrite IH. reflexivity.
Qed.

Lemma mapM_some_none {A B} (f : A -> option B) (l : list A) :
  Exists (fun x => f x = None) l -> mapM f l = None.
Proof.
  induction 1 as [x l Hx|x l _ IH]; simpl.
  - rewrite Hx. reflexivity.
  - destruct (f x); simpl; [rewrite IH|]; reflexivity.
Qed.

End Evaluate_lemmas.

Lemma norm_index_in (n : nat) (i : Z) :
  (- Z.of_nat n <= i < Z.of_nat n)%Z ->
  norm_index n i = Some (Z.to_nat (i mod Z.of_nat n)) /\
  Z.to_nat (i mod Z.of_nat n) < n.
Proof.
  intros Hi. assert (Hmod : (0 <= i mod Z.of_nat n < Z.of_nat n)%Z)
    by (apply Z.mod_pos_bound; lia).
  split; [|lia]. unfold norm_index.
  destruct (Z.leb_spec 0 i) as [H0|H0].
  - destruct (Z.ltb_spec i (Z.of_nat n)) as [H1|H1]; [|lia].
    rewrite Z.mod_small by lia. reflexivity.
  - destruct (Z.leb_spec (- Z.of_nat n) i) as [H1|H1]; [|lia].
    rewrite <- (Z.mod_unique i (Z.of_nat n) (-1) (Z.of_nat n + i)) by lia.
    reflexivity.
Qed.

Lemma norm_index_out (n : nat) (i : Z) :
  (i < - Z.of_nat n \/ Z.of_nat n <= i)%Z -> norm_index n i = None.
Proof.
  intros Hi. unfold norm_index.
  destruct (Z.leb_spec 0 i); [destruct (Z.ltb_spec i (Z.of_nat n)); [lia|reflexivity]|].
  destruct (Z.leb_spec (- Z.of_nat n) i); [lia|reflexivity].
Qed.

Lemma norm_index_nat (n v : nat) :
  norm_index n (Z.of_nat v) = if v <? n then Some v else None.
Proof.
  unfold norm_index. destruct (Z.leb_spec 0 (Z.of_nat v)) as [_|H]; [|lia].
  destruct (Z.ltb_spec (Z.of_nat v) (Z.of_nat n)) as [H|H];
    destruct (Nat.ltb_spec v n); try lia; [rewrite Nat2Z.id|]; reflexivity.
Qed.

Lemma mapM_norm_nat (n : nat) (vs : list nat) :
  mapM (norm_index n) (map Z.of_nat vs) =
    if forallb (fun v => v <? n) vs then Some vs else None.
Proof.
  induction vs as [|v vs IH]; [reflexivity|]. simpl.
  rewrite norm_index_nat, IH. destruct (v <? n), (forallb _ vs); reflexivity.
Qed.

Lemma gather_columns_out (p : list (list fl)) (data : list nat) V :
  p <> [] -> Forall (fun row => length row = V) p ->
  Exists (fun v => V <= v) data -> gather_columns p data = None.
Proof.
  intros Hne Hp Hex. unfold gather_columns. apply mapM_some_none.
  eapply Exists_impl; [exact Hex|]. intros v Hv. simpl.
  apply (mapM_column_none _ _ V); assumption.
Qed.

(** [Discrete.evaluate] on a rectangular table with at least one state,
    fed a [long] tensor of symbols: with [V = num_outputs], every symbol
    in [[-V, V)] selects column [i mod V] of the table (a negative symbol
    counts from the last column), the looked-up rows are passed to
    [normalize], and the state is handed back; a symbol below [-V] or
    from [V] on raises.  On non-negative symbols this is the [list nat]
    reading [discrete_evaluate]. *)
Theorem evaluate_lookup (st : state) (data : list Z) :
  probabilities st <> [] ->
  Forall (fun row => length row = num_outputs st) (probabilities st) ->
  (Forall (fun i => - Z.of_nat (num_outputs st) <= i < Z.of_nat (num_outputs st))%Z data ->
     discrete_evaluate_long st data =
       Some (st, map normalize_row
         (map (fun i => map (fun row => nth (Z.to_nat (i mod Z.of_nat (num_outputs st))) row NaN)
                            (probabilities st)) data))) /\
  (Exists (fun i => i < - Z.of_nat (num_outputs st) \/ Z.of_nat (num_outputs st) <= i)%Z data ->
     discrete_evaluate_long st data = None) /\
  (forall vs : list nat,
     discrete_evaluate_long st (map Z.of_nat vs) = discrete_evaluate st vs).
Proof.
  intros Hne Hrect. set (V := num_outputs st). split; [|split].
  - intros Hdata. unfold discrete_evaluate_long.
    rewrite (mapM_all_some _ _ (fun i => Z.to_nat (i mod Z.of_nat V))).
    + unfold discrete_evaluate, gather_columns.
      rewrite (mapM_all_some _ _ (fun v => map (fun row => nth v row NaN) (probabilities st))).
      * rewrite !map_map. reflexivity.
      * apply List.Forall_map. eapply Forall_impl; [exact Hdata|]. intros i Hi. simpl.
        apply (mapM_column _ _ V); [exact Hrect|]. apply (norm_index_in V i Hi).
    + eapply Forall_impl; [exact Hdata|]. intros i Hi. apply (norm_index_in V i Hi).
  - intros Hex. unfold discrete_evaluate_long. rewrite mapM_some_none; [reflexivity|].
    eapply Exists_impl; [exact Hex|]. intros i Hi. apply norm_index_out, Hi.
  - intros vs. unfold discrete_evaluate_long. rewrite mapM_norm_nat.
    destruct (forallb _ vs) eqn:E; [reflexivity|].
    unfold discrete_evaluate. rewrite (gather_columns_out _ _ V Hne Hrect); [reflexivity|].
    subst V. clear -E. induction vs as [|v vs IH]; [discriminate|].
    simpl in E. destruct (Nat.ltb_spec v (num_outputs st)).
    + right. apply IH, E.
    + left. exact H.
Qed.

Section Gaussian_more.

Lemma Forall_nth_lt {A} (P : A -> Prop) (l : list A) (d : A) k :
  Forall P l -> k < length l -> P (nth k l d).
Proof. intros Hl Hk. rewrite List.Forall_forall in Hl. apply Hl, nth_In, Hk. Qed.

Lemma length_diag v : length (diag v) = length v.
Proof. unfold diag. rewrite length_map, length_seq. reflexivity. Qed.

Lemma diag_rows v : Forall (fun row => length row = length v) (diag v).
Proof.
  unfold diag. apply List.Forall_forall. intros row Hrow.
  apply in_map_iff in Hrow as [r [<- _]]. rewrite length_map, length_seq. reflexivity.
Qed.

Lemma nth_diag v r c :
  r < length v -> c < length v ->
  nth c (nth r (diag v) []) 0%Qc = if r =? c then nth c v 0%Qc else 0%Qc.
Proof.
  intros Hr Hc. unfold diag.
  rewrite (nth_map_seq (fun r0 => map (fun c0 => if r0 =? c0 then nth c0 v 0%Qc else 0%Qc)
                                   (seq 0 (length v)))) by exact Hr.
  rewrite (nth_map_seq (fun c0 => if r =? c0 then nth c0 v 0%Qc else 0%Qc)) by exact Hc.
  reflexivity.
Qed.

Lemma scaled_eye_shape s D :
  length (scaled_eye s D) = D /\
  Forall (fun row => length row = D) (scaled_eye s D) /\
  forall r c, r < D -> c < D -> r <> c -> nth c (nth r (scaled_eye s D) []) 0%Qc = 0%Qc.
Proof.
  unfold scaled_eye.
  pose proof (length_diag (repeat 1%Qc D)) as Hl. rewrite repeat_length in Hl.
  split; [rewrite length_map; exact Hl|]. split.
  - apply List.Forall_forall. intros row Hrow. apply in_map_iff in Hrow as [r [<- Hr]].
    rewrite length_map. pose proof (diag_rows (repeat 1%Qc D)) as Hrows.
    rewrite List.Forall_forall in Hrows. rewrite (Hrows r Hr), repeat_length. reflexivity.
  - intros r c Hr Hc Hrc.
    rewrite (nth_map_lt _ _ r []) by lia.
    rewrite (nth_map_lt _ _ c 0%Qc).
    + rewrite nth_diag by (rewrite repeat_length; lia).
      destruct (Nat.eqb_spec r c); [contradiction|]. apply Qcmult_0_r.
    + pose proof (diag_rows (repeat 1%Qc D)) as Hrows.
      rewrite repeat_length in Hrows.
      rewrite (Forall_nth_lt (fun row => length row = D) _ [] r); [lia|exact Hrows|lia].
Qed.

End Gaussian_more.

(** Every matrix returned by [_get_full_covariance_matrix] is square and
    zero off the diagonal, whatever the covariance name and the stored
    covariance tensor. *)
Theorem full_covariance_diagonal (g : gaussian) (i : nat) (M : matrix) :
  get_full_covariance_matrix g i = Some M ->
  Forall (fun row => length row = length M) M /\
  forall r c, r < length M -> c < length M -> r <> c -> nth c (nth r M []) 0%Qc = 0%Qc.
Proof.
  assert (Hdiag : forall v, Forall (fun row => length row = length (diag v)) (diag v) /\
            forall r c, r < length (diag v) -> c < length (diag v) -> r <> c ->
              nth c (nth r (diag v) []) 0%Qc = 0%Qc).
  { intros v. rewrite length_diag. split; [apply diag_rows|].
    intros r c Hr Hc Hrc. rewrite nth_diag by assumption.
    destruct (Nat.eqb_spec r c); [contradiction | reflexivity]. }
  assert (Heye : forall s D, Forall (fun row => length row = length (scaled_eye s D)) (scaled_eye s D) /\
            forall r c, r < length (scaled_eye s D) -> c < length (scaled_eye s D) -> r <> c ->
              nth c (nth r (scaled_eye s D) []) 0%Qc = 0%Qc).
  { intros s D. destruct (scaled_eye_shape s D) as (Hl & Hrows & Hoff).
    rewrite Hl. split; [exact Hrows | exact Hoff]. }
  unfold get_full_covariance_matrix.
  destruct (String.eqb (covariance g) "diag"%string).
  - destruct (covars g) as [m|v]; [|discriminate].
    destruct (m !! i) as [row|]; simpl; [|discriminate]. intros [= <-]. apply Hdiag.
  - destruct (String.eqb (covariance g) "diag-shared"%string).
    + destruct (covars g) as [m|v]; [discriminate|]. intros [= <-]. apply Hdiag.
    + destruct (covars g) as [m|v]; [discriminate|].
      destruct (v !! i) as [s|]; simpl; [|discriminate]. intros [= <-]. apply Heye.
Qed.

(** For a Gaussian head built by the constructor with [K] components and
    [D] features, [_get_full_covariance_matrix(i)] succeeds for [i < K]
    with ["diag"] and ["spherical"], for every [i] with ["diag-shared"],
    and for [i < D] with every other name (["full"] included), since the
    index then reads a length-[D] vector. *)
Theorem full_covariance_index_bounds (K D : nat) (cov : string)
    (draw : nat -> nat -> Qc) (g : gaussian) (i : nat) :
  gaussian_init K D cov draw = Some g ->
  (is_Some (get_full_covariance_matrix g i) <->
     if String.eqb cov "diag"%string then i < K
     else if String.eqb cov "diag-shared"%string then True
     else if String.eqb cov "spherical"%string then i < K
     else i < D).
Proof.
  unfold gaussian_init. intros [= <-].
  unfold get_full_covariance_matrix, reset_parameters. cbn [covariance covars].
  assert (Hopt : forall {A B} (f : A -> B) (o : option A), is_Some (option_map f o) <-> is_Some o).
  { intros A B f [x|]; simpl; split; intros [y Hy]; try discriminate; eexists; reflexivity. }
  destruct (String.eqb_spec cov "diag"%string) as [->|N1].
  - cbn -[zeros]. rewrite Hopt, lookup_lt_is_Some, length_map, length_zeros. reflexivity.
  - destruct (String.eqb_spec cov "spherical"%string) as [->|N2].
    + cbn -[repeat]. rewrite Hopt, lookup_lt_is_Some, length_map, repeat_length. reflexivity.
    + destruct (String.eqb_spec cov "diag-shared"%string) as [->|N3].
      * cbn -[repeat]. split; [intros _; exact I | intros _; eexists; reflexivity].
      * cbn -[repeat]. rewrite Hopt, lookup_lt_is_Some, length_map, repeat_length.
        reflexivity.
Qed.

Section Num_states_more.

Lemma fold_max_spec (l : list Z) (x : Z) :
  Forall (fun y => y <= fold_left Z.max l x)%Z (x :: l) /\ In (fold_left Z.max l x) (x :: l).
Proof.
  revert x. induction l as [|y l IH]; intros x; simpl.
  - split; [constructor; [lia | constructor] | left; reflexivity].
  - destruct (IH (Z.max x y)) as [H1 H2].
    inversion H1 as [|? ? Hm Hl]; subst. split.
    + constructor; [lia|]. constructor; [lia|]. exact Hl.
    + destruct H2 as [H2|H2].
      * rewrite <- H2. destruct (Z.max_spec x y) as [[_ ->]|[_ ->]]; simpl; auto.
      * right. right. exact H2.
Qed.

Lemma mapM_id_inv (l : list (option Z)) (ys : list Z) :
  mapM id l = Some ys -> l = map Some ys.
Proof.
  revert ys. induction l as [|o l IH]; intros ys H; simpl in H.
  - injection H as <-. reflexivity.
  - destruct o as [y|]; simpl in H; [|discriminate].
    destruct (mapM id l) as [zs|] eqn:E; simpl in H; [|discriminate].
    injection H as <-. simpl. f_equal. apply IH. reflexivity.
Qed.

(** Induction on [seqdata], with the entries of a dataset. *)
Lemma seqdata_rect' (P : seqdata -> Prop) :
  (forall dt xs, P (NDArray dt xs)) -> (forall dt xs, P (Tensor dt xs)) ->
  (forall es, Forall P es -> P (Dataset es)) -> forall d, P d.
Proof.
  intros H1 H2 H3.
  exact (fix IH d := match d return P d with
    | NDArray dt xs => H1 dt xs
    | Tensor dt xs => H2 dt xs
    | Dataset es => H3 es ((fix go (l : list seqdata) : Forall P l :=
                              match l with
                              | [] => @List.Forall_nil _ P
                              | e :: l' => @List.Forall_cons _ P e l' (IH e) (go l')
                              end) es)
    end).
Qed.

Lemma leaf_max_bound (x : Z) (xs : list Z) :
  Forall (fun y => y < fold_left Z.max xs x + 1)%Z (x :: xs) /\
  In (fold_left Z.max xs x + 1 - 1)%Z (x :: xs).
Proof.
  destruct (fold_max_spec xs x) as [Hle Hin]. split.
  - eapply Forall_impl; [exact Hle|]. simpl. intros; lia.
  - replace (fold_left Z.max xs x + 1 - 1)%Z with (fold_left Z.max xs x) by ring. exact Hin.
Qed.

End Num_states_more.

(** When no [int64] maximum sits at [2^63 - 1], the number of states
    inferred by [_get_num_states] is exactly one more than the largest
    state value anywhere in the data: every value is below it, and the
    value one below it occurs. *)
Theorem num_states_bound (d : seqdata) (k : Z) :
  Forall (fun x => - 2 ^ 63 <= x < 2 ^ 63 - 1)%Z (leaves d) ->
  get_num_states d = Some k ->
  Forall (fun x => x < k)%Z (leaves d) /\ In (k - 1)%Z (leaves d).
Proof.
  revert k. induction d as [dt xs|dt xs|es IH] using seqdata_rect'; intros k Hr Hk; simpl in *.
  - destruct (is_int64 dt); [|discriminate].
    destruct xs as [|x xs]; simpl in Hk; [discriminate|]. injection Hk as <-.
    destruct (fold_max_spec xs x) as [_ Hin].
    rewrite List.Forall_forall in Hr. specialize (Hr _ Hin).
    rewrite wrap64_small by lia. apply leaf_max_bound.
  - destruct (is_int64 dt); [|discriminate].
    destruct xs as [|x xs]; simpl in Hk; [discriminate|]. injection Hk as <-.
    apply leaf_max_bound.
  - unfold max_opt in Hk.
    destruct (mapM id (map get_num_states es)) as [[|y ys]|] eqn:E; try discriminate.
    injection Hk as <-. apply mapM_id_inv in E.
    destruct (fold_max_spec ys y) as [Hle Hin].
    assert (Hent : forall e, In e es ->
      exists ke, get_num_states e = Some ke /\ In ke (y :: ys)).
    { intros e He. apply (in_map get_num_states) in He. rewrite E in He.
      apply in_map_iff in He as [ke [Hke Hin']]. exists ke. auto. }
    assert (Hre : forall e, In e es -> Forall (fun x => - 2 ^ 63 <= x < 2 ^ 63 - 1)%Z (leaves e)).
    { intros e He. apply List.Forall_forall. intros x Hx.
      rewrite List.Forall_forall in Hr. apply Hr, in_flat_map. eauto. }
    rewrite List.Forall_forall in IH. split.
    + apply List.Forall_forall. intros x Hx. apply in_flat_map in Hx as [e [He Hx]].
      destruct (Hent e He) as [ke [Hke Hin']].
      destruct (IH e He ke (Hre e He) Hke) as [Hlt _].
      rewrite List.Forall_forall in Hlt, Hle. specialize (Hlt x Hx). specialize (Hle ke Hin').
      lia.
    + apply (in_map Some) in Hin. rewrite <- E in Hin.
      apply in_map_iff in Hin as [e [Hke He]].
      destruct (IH e He _ (Hre e He) Hke) as [_ Hin2].
      apply in_flat_map. eauto.
Qed.
(** ** Witnesses of the further properties *)

Lemma reset_rows_normalised_witness :
  (forall k v, 0 <= (fun _ _ : nat => qf 1 2) k v)%Qc /\
  (map length (probabilities (discrete_reset (fun _ _ => qf 1 2) st_uniform)) =
     map length (probabilities st_uniform) /\
   mats (discrete_reset (fun _ _ => qf 1 2) st_uniform) = mats st_uniform /\
   vecs (discrete_reset (fun _ _ => qf 1 2) st_uniform) = vecs st_uniform /\
   forall k row, probabilities st_uniform !! k = Some row ->
     exists row', probabilities (discrete_reset (fun _ _ => qf 1 2) st_uniform) !! k = Some row' /\
       (qsum (map ((fun _ _ => qf 1 2) k) (seq 0 (length row))) <> 0%Qc ->
          fsum row' = Fin 1%Qc /\ Forall (fun x => exists q, x = Fin q /\ 0 <= q)%Qc row') /\
       (qsum (map ((fun _ _ => qf 1 2) k) (seq 0 (length row))) = 0%Qc ->
          Forall (fun x => x = NaN) row')).
Proof.
  assert (H : forall k v : nat, (0 <= (fun _ _ : nat => qf 1 2) k v)%Qc)
    by (intros k v; qc_le).
  split; [exact H|]. exact (reset_rows_normalised (fun _ _ => qf 1 2) st_uniform H).
Defined.


Lemma epoch_accumulates_witness :
  batches_two <> [] /\
  Forall (fun b => batch_ok (num_states st_uniform) (num_outputs st_uniform) b = true)
    batches_two /\
  exists st' r m d,
    fit_epoch st_uniform None batches_two = Some (st', Some r) /\
    probabilities st' = probabilities st_uniform /\
    mats st' !! num r = Some m /\ vecs st' !! denom r = Some d /\
    map length m = repeat (num_outputs st_uniform) (num_states st_uniform) /\
    length d = num_states st_uniform /\
    (forall k v, k < num_states st_uniform -> v < num_outputs st_uniform ->
       nth v (nth k m []) 0%Qc = epoch_num_spec batches_two k v) /\
    (forall k, k < num_states st_uniform ->
       nth k d 0%Qc = epoch_denom_spec batches_two k /\ qsum (nth k m []) = nth k d 0%Qc).
Proof.
  assert (H1 : batches_two <> []) by (unfold batches_two, batches_mixed; simpl; discriminate).
  assert (H2 : Forall (fun b => batch_ok (num_states st_uniform) (num_outputs st_uniform) b = true)
                 batches_two) by (unfold batches_two, batches_mixed; simpl; repeat constructor).
  split; [exact H1|]. split; [exact H2|].
  exact (epoch_accumulates st_uniform batches_two H1 H2).
Defined.

Lemma apply_broadcast_witness :
  (mats st_three !! num (mkStats 0 0) = Some [[qc 1; qc 2]] /\
   vecs st_three !! denom (mkStats 0 0) = Some [qc 3] /\
   [[qc 1; qc 2]] <> [] /\
   Forall (fun row => length row = width [[qc 1; qc 2]]) [[qc 1; qc 2]] /\
   length [qc 3] = length [[qc 1; qc 2]]) /\
  ((apply st_three (mkStats 0 0) = None <->
      (width [[qc 1; qc 2]] <> length [[qc 1; qc 2]] /\ width [[qc 1; qc 2]] <> 1 /\
       length [[qc 1; qc 2]] <> 1)) /\
   (forall st', apply st_three (mkStats 0 0) = Some st' ->
      mats st' = mats st_three /\ vecs st' = vecs st_three /\
      map length (probabilities st') =
        repeat (if width [[qc 1; qc 2]] =? 1 then length [[qc 1; qc 2]]
                else width [[qc 1; qc 2]]) (length [[qc 1; qc 2]]) /\
      (width [[qc 1; qc 2]] = length [[qc 1; qc 2]] ->
         forall k w, k < length [[qc 1; qc 2]] -> w < length [[qc 1; qc 2]] ->
         nth w (nth k (probabilities st') []) NaN =
         fdiv (Fin (nth w (nth k [[qc 1; qc 2]] []) 0%Qc)) (Fin (nth w [qc 3] 0%Qc))))).
Proof.
  assert (H1 : mats st_three !! num (mkStats 0 0) = Some [[qc 1; qc 2]]) by reflexivity.
  assert (H2 : vecs st_three !! denom (mkStats 0 0) = Some [qc 3]) by reflexivity.
  assert (H3 : [[qc 1; qc 2]] <> []) by discriminate.
  assert (H4 : Forall (fun row => length row = width [[qc 1; qc 2]]) [[qc 1; qc 2]])
    by (repeat constructor).
  assert (H5 : length [qc 3] = length [[qc 1; qc 2]]) by reflexivity.
  split; [repeat split; assumption|].
  exact (apply_broadcast st_three (mkStats 0 0) _ _ H1 H2 H3 H4 H5).
Defined.

Lemma epoch_apply_rejects_witness :
  let st := mkState [[Fin (qc 1); Fin (qc 0); Fin (qc 0)]; [Fin (qc 0); Fin (qc 0); Fin (qc 1)]]
              ∅ ∅ 0 in
  let bs := [([0; 2], mkResp 2 [[qc 1; qc 0]; [qc 0; qc 1]])] in
  (bs <> [] /\
   Forall (fun b => batch_ok (num_states st) (num_outputs st) b = true) bs /\
   2 <= num_states st /\ 2 <= num_outputs st /\ num_outputs st <> num_states st) /\
  run_apply st bs = None.
Proof.
  intros st bs.
  assert (H1 : bs <> []) by discriminate.
  assert (H2 : Forall (fun b => batch_ok (num_states st) (num_outputs st) b = true) bs)
    by (repeat constructor).
  assert (H3 : 2 <= num_states st) by (vm_compute; lia).
  assert (H4 : 2 <= num_outputs st) by (vm_compute; lia).
  assert (H5 : num_outputs st <> num_states st) by (vm_compute; lia).
  split; [repeat split; assumption|].
  exact (epoch_apply_rejects st bs H1 H2 H3 H4 H5).
Defined.

Lemma evaluate_lookup_witness :
  (probabilities st_uniform <> [] /\
   Forall (fun row => length row = num_outputs st_uniform) (probabilities st_uniform) /\
   Forall (fun i => - Z.of_nat (num_outputs st_uniform) <= i < Z.of_nat (num_outputs st_uniform))%Z
     [(-1)%Z; 0%Z]) /\
  discrete_evaluate_long st_uniform [(-1)%Z; 0%Z] =
    Some (st_uniform, map normalize_row
      (map (fun i => map (fun row => nth (Z.to_nat (i mod Z.of_nat (num_outputs st_uniform))) row NaN)
                         (probabilities st_uniform)) [(-1)%Z; 0%Z])).
Proof.
  assert (H1 : probabilities st_uniform <> []) by discriminate.
  assert (H2 : Forall (fun row => length row = num_outputs st_uniform) (probabilities st_uniform))
    by (repeat constructor).
  assert (H3 : Forall (fun i => - Z.of_nat (num_outputs st_uniform) <= i <
                                Z.of_nat (num_outputs st_uniform))%Z [(-1)%Z; 0%Z])
    by (vm_compute; repeat constructor; discriminate).
  split; [split; [|split]; assumption|].
  exact (proj1 (evaluate_lookup st_uniform [(-1)%Z; 0%Z] H1 H2) H3).
Defined.

Lemma full_covariance_diagonal_witness :
  exists g M,
    gaussian_init 2 3 "diag"%string (fun _ _ => 0%Qc) = Some g /\
    get_full_covariance_matrix g 1 = Some M /\
    (Forall (fun row => length row = length M) M /\
     forall r c, r < length M -> c < length M -> r <> c -> nth c (nth r M []) 0%Qc = 0%Qc).
Proof.
  do 2 eexists. split; [reflexivity|].
  assert (H : get_full_covariance_matrix
                (reset_parameters (mkGaussian "diag" (zeros 2 3) 3 (CovMat (zeros 2 3)))
                   (fun _ _ => 0%Qc)) 1 = Some _) by reflexivity.
  split; [exact H|]. exact (full_covariance_diagonal _ _ _ H).
Defined.

Lemma full_covariance_index_bounds_witness :
  exists g,
    gaussian_init 2 3 "full"%string (fun _ _ => 0%Qc) = Some g /\
    (is_Some (get_full_covariance_matrix g 2) <->
       if String.eqb "full" "diag" then 2 < 2
       else if String.eqb "full" "diag-shared" then True
       else if String.eqb "full" "spherical" then 2 < 2
       else 2 < 3).
Proof.
  eexists.
  assert (H : gaussian_init 2 3 "full"%string (fun _ _ => 0%Qc) = Some _) by reflexivity.
  split; [exact H|]. exact (full_covariance_index_bounds 2 3 "full" _ _ 2 H).
Defined.

Lemma num_states_bound_witness :
  (Forall (fun x => - 2 ^ 63 <= x < 2 ^ 63 - 1)%Z
     (leaves (Dataset [Tensor Int64 [1; 5]%Z; NDArray Int64 [3%Z]])) /\
   get_num_states (Dataset [Tensor Int64 [1; 5]%Z; NDArray Int64 [3%Z]]) = Some 6%Z) /\
  (Forall (fun x => x < 6)%Z (leaves (Dataset [Tensor Int64 [1; 5]%Z; NDArray Int64 [3%Z]])) /\
   In (6 - 1)%Z (leaves (Dataset [Tensor Int64 [1; 5]%Z; NDArray Int64 [3%Z]]))).
Proof.
  assert (H1 : Forall (fun x => - 2 ^ 63 <= x < 2 ^ 63 - 1)%Z
     (leaves (Dataset [Tensor Int64 [1; 5]%Z; NDArray Int64 [3%Z]])))
    by (simpl; repeat constructor; lia).
  assert (H2 : get_num_states (Dataset [Tensor Int64 [1; 5]%Z; NDArray Int64 [3%Z]]) = Some 6%Z)
    by (vm_compute; reflexivity).
  split; [split; assumption|]. exact (num_states_bound _ _ H1 H2).
Defined.
